(** * vyos.ifconfig.bridge: the bridge interface and its [update] pass

    A shallow embedding of [python/vyos/ifconfig/bridge.py] (class
    [BridgeIf]): the parameter tables [_sysfs_set] and [_command_set], the
    setters, and [update], the pass that brings a bridge to the state asked
    for by a configuration dictionary.

    The pass is written in a small state-and-exception monad: a setter
    changes the kernel state it is run in, appends what it did to a log,
    and either returns or raises.  A raised exception leaves the changes
    made before it in place, as in Python. *)

From stdpp Require Import base option list strings gmap pretty.
From Stdlib Require Import Ascii ZArith Lia.

Local Open Scope Z_scope.

(** ** Values *)

(** A leaf of the configuration dictionary, and what is written to sysfs:
    a Python [int] or a Python [str]. *)
Inductive value :=
  | VInt (z : Z)
  | VStr (s : string).

Global Instance value_eq_dec : EqDecision value.
Proof. solve_decision. Defined.

(** [str(v)], as [str.format] renders a value. *)
Definition py_str (v : value) : string :=
  match v with
  | VInt z => pretty z
  | VStr s => s
  end.

Definition digit_of_ascii (a : Ascii.ascii) : option Z :=
  let n := Ascii.nat_of_ascii a in
  if ((48 <=? n)%nat && (n <=? 57)%nat)%bool
  then Some (Z.of_nat (n - 48)) else None.

(** The blanks that [int] strips from both ends of a [str] (the ASCII
    ones: tab to carriage return, the four separators, the space). *)
Definition is_py_space (a : Ascii.ascii) : bool :=
  let n := Ascii.nat_of_ascii a in
  (((9 <=? n)%nat && (n <=? 13)%nat) || ((28 <=? n)%nat && (n <=? 32)%nat))%bool.

Fixpoint lstrip (s : string) : string :=
  match s with
  | EmptyString => EmptyString
  | String a s' => if is_py_space a then lstrip s' else s
  end.

Definition strip (s : string) : string :=
  String.rev (lstrip (String.rev (lstrip s))).

(** Decimal digits, with single underscores between digits:
    [after_digit] says that the last character read was a digit. *)
Fixpoint digits_to_Z (acc : Z) (after_digit : bool) (s : string) : option Z :=
  match s with
  | EmptyString => if after_digit then Some acc else None
  | String a s' =>
      if Ascii.eqb a "_"%char then
        if after_digit then digits_to_Z acc false s' else None
      else
        match digit_of_ascii a with
        | Some d => digits_to_Z (10 * acc + d) true s'
        | None => None
        end
  end.

Definition unsigned_of_string (s : string) : option Z :=
  digits_to_Z 0 false s.

(** [int(t)]: the identity on an [int]; on a [str] of ASCII characters,
    the decimal number it spells: blanks around it are dropped, a sign may
    come first, single underscores may separate digits ([None] stands for
    [ValueError]). *)
Definition py_int (t : value) : option Z :=
  match t with
  | VInt z => Some z
  | VStr s =>
      match strip s with
      | String "-"%char s' => Z.opp <$> unsigned_of_string s'
      | String "+"%char s' => unsigned_of_string s'
      | s' => unsigned_of_string s'
      end
  end.

(** ** The configuration dictionary

    [update] reads a fixed set of keys of the dictionary made by
    [get_config_dict()]; the record has one field per key.  A field of type
    [option] is [None] when the key is missing (or holds [None]: [dict.get]
    and [vyos_dict_search] do not tell the two apart); a field of type
    [bool] says whether the key is there, which is all [in] looks at.
    [member.interface] keeps the order of the dictionary, which is the
    order [items()] walks it in. *)

Record PortConfig := mkPortConfig {
  port_cost : option value;       (* interface_config.get('cost') *)
  port_priority : option value;   (* interface_config.get('priority') *)
}.

Record IgmpConfig := mkIgmpConfig {
  querier : option value;
}.

Record MemberConfig := mkMemberConfig {
  interface : option (list (string * PortConfig));
  interface_remove : option (list string);
}.

Record DesiredConfig := mkDesiredConfig {
  aging : option value;
  forwarding_delay : option value;
  hello_time : option value;
  max_age : option value;
  priority : option value;
  stp : bool;
  igmp : option IgmpConfig;
  member : option MemberConfig;
  disable : bool;
}.

(** ** The kernel state and the log *)

Inductive AdminDirection := up | down.

Global Instance AdminDirection_eq_dec : EqDecision AdminDirection.
Proof. solve_decision. Defined.

(** The commands of [_command_set], and their text. *)
Inductive ShellCmd :=
  | IpLinkSetMaster (dev master : string)
  | IpLinkSetNomaster (dev : string).

Global Instance ShellCmd_eq_dec : EqDecision ShellCmd.
Proof. solve_decision. Defined.

Definition shell_text (c : ShellCmd) : string :=
  match c with
  | IpLinkSetMaster dev master =>
      "ip link set dev " +:+ dev +:+ " master " +:+ master
  | IpLinkSetNomaster dev =>
      "ip link set dev " +:+ dev +:+ " nomaster"
  end.

(** What a pass does to the outside, in the order it does it. *)
Inductive Event :=
  | SysfsWrite (location : string) (v : value)
  | Command (c : ShellCmd)
  | FlushAddrs (ifname : string)
  | AdminState (ifname : string) (state : AdminDirection) (applied : bool).

Global Instance Event_eq_dec : EqDecision Event.
Proof. solve_decision. Defined.

(** The state a pass runs in: the sysfs files, the master of every enslaved
    port, the addresses of every interface, and, for the bridge object
    itself, the counter of [set_admin_state] with the link state. *)
Record World := mkWorld {
  sysfs : gmap string value;
  master : gmap string string;
  addrs : gmap string (list string);
  admin_state_down_cnt : nat;
  link_up : bool;
}.

Definition with_sysfs (f : gmap string value → gmap string value) (w : World) :=
  mkWorld (f (sysfs w)) (master w) (addrs w) (admin_state_down_cnt w) (link_up w).
Definition with_master (f : gmap string string → gmap string string) (w : World) :=
  mkWorld (sysfs w) (f (master w)) (addrs w) (admin_state_down_cnt w) (link_up w).
Definition with_addrs
    (f : gmap string (list string) → gmap string (list string)) (w : World) :=
  mkWorld (sysfs w) (master w) (f (addrs w)) (admin_state_down_cnt w) (link_up w).
Definition with_admin (cnt : nat) (lnk : bool) (w : World) :=
  mkWorld (sysfs w) (master w) (addrs w) cnt lnk.

(** The ports of bridge [br]. *)
Definition attached (w : World) (br port : string) : Prop :=
  master w !! port = Some br.

(** ** The monad *)

Inductive Error :=
  | InvalidParameter (name : string) (v : value)
  | ConversionError (name : string) (v : value)
  | KeyError (name : string).

Inductive Result (A : Type) :=
  | Ok (a : A)
  | Raise (e : Error).
Arguments Ok {A} a.
Arguments Raise {A} e.

Record Run (A : Type) := mkRun {
  result : Result A;
  world : World;
  events : list Event;
}.
Arguments mkRun {A} _ _ _.
Arguments result {A} _.
Arguments world {A} _.
Arguments events {A} _.

Definition M (A : Type) := World → Run A.

Definition ret {A} (a : A) : M A := λ w, mkRun (Ok a) w [].

Definition bind {A B} (m : M A) (f : A → M B) : M B := λ w,
  let r := m w in
  match result r with
  | Ok a =>
      let r' := f a (world r) in
      mkRun (result r') (world r') (events r ++ events r')
  | Raise e => mkRun (Raise e) (world r) (events r)
  end.

Definition raise {A} (e : Error) : M A := λ w, mkRun (Raise e) w [].
Definition emit (ev : Event) : M unit := λ w, mkRun (Ok tt) w [ev].
Definition modify (f : World → World) : M unit := λ w, mkRun (Ok tt) (f w) [].
Definition gets {A} (f : World → A) : M A := λ w, mkRun (Ok (f w)) w [].

Declare Scope pass_scope.
Delimit Scope pass_scope with pass.
Notation "x <- m ;; k" := (bind m (λ x, k))
  (at level 100, m at next level, right associativity) : pass_scope.
Notation "m ;; k" := (bind m (λ _, k))
  (at level 100, right associativity) : pass_scope.
Local Open Scope pass_scope.

(** [for x in l: body(x)] *)
Fixpoint for_each {A} (l : list A) (body : A → M unit) : M unit :=
  match l with
  | [] => ret tt
  | x :: l' => body x ;; for_each l' body
  end.

Definition succeeds {A} (r : Run A) : Prop := ∃ a, result r = Ok a.

(** ** Parameter tables *)

(** An entry of a [_sysfs_set] dictionary: ['validate'] (the value is
    refused when it answers [false]), the optional ['convert'] ([None] from
    the conversion stands for its exception), and ['location'], a path with
    one hole for the interface name. *)
Record ParameterSpec := mkParameterSpec {
  validate : value → bool;
  convert : option (value → option value);
  location : string → string;
}.

(** An entry of a [_command_set] dictionary: ['shellcmd'], a command with
    holes for the value and the interface name. *)
Record CommandSpec := mkCommandSpec {
  shellcmd : string → string → ShellCmd;
}.

(** A dictionary with string keys, in the order it was written; [**]
    unpacking of two dictionaries lets the second one win. *)
Fixpoint dict_get {A} (d : list (string * A)) (k : string) : option A :=
  match d with
  | [] => None
  | (k', a) :: d' => if decide (k = k') then Some a else dict_get d' k
  end.

Definition dict_merge {A} (d1 d2 : list (string * A)) : list (string * A) :=
  d2 ++ d1.

(** What a class of interfaces carries, and an object of such a class. *)
Record IfClass := mkIfClass {
  cls_sysfs_set : list (string * ParameterSpec);
  cls_command_set : list (string * CommandSpec);
}.

Record Iface := mkIface {
  cls : IfClass;
  ifname : string;
}.

(** Modelled from the spec: [vyos.validate.assert_positive], which lies
    outside [bridge.py]. The spec calls it the positive-integer validator:
    it accepts the positive integers and refuses everything else. *)
Definition assert_positive (n : value) : bool :=
  match n with
  | VInt z => 0 <? z
  | VStr _ => false
  end.

(** Modelled from the spec: [vyos.validate.assert_boolean], which lies
    outside [bridge.py]. The spec calls it the boolean validator; [update]
    and the docstrings of the setters pass it 0 and 1, as numbers or as the
    one-character strings. *)
Definition assert_boolean (b : value) : bool :=
  match b with
  | VInt z => (z =? 0) || (z =? 1)
  | VStr s => bool_decide (s = "0") || bool_decide (s = "1")
  end.

(** ** The base class *)

Module Interface.

(** Modelled from the spec: the tables of the base class [Interface] lie
    outside [bridge.py], and the spec's registry lists no parameter besides
    those of the bridge and of its ports. *)
Definition _sysfs_set : list (string * ParameterSpec) := [].
Definition _command_set : list (string * CommandSpec) := [].

Definition class : IfClass := mkIfClass _sysfs_set _command_set.

(** [Interface(ifname)] *)
Definition new (ifname : string) : Iface := mkIface class ifname.

(** A write of the property store: the file now holds the value.  The
    store is taken to accept every write: a write that the kernel turns
    down is not part of this model. *)
Definition _write_sysfs (filename : string) (v : value) : M unit :=
  emit (SysfsWrite filename v) ;;
  modify (with_sysfs (<[filename := v]>)).

(** What the kernel does with a command: [master] enslaves the device to
    the bridge, [nomaster] releases it from whichever bridge has it.  The
    command is taken to succeed: a command that exits with an error is not
    part of this model. *)
Definition kernel_run (c : ShellCmd) (w : World) : World :=
  match c with
  | IpLinkSetMaster dev br => with_master (<[dev := br]>) w
  | IpLinkSetNomaster dev => with_master (delete dev) w
  end.

Definition _cmd (c : ShellCmd) : M unit :=
  emit (Command c) ;;
  modify (kernel_run c).

(** Modelled from the spec: the body of a parameter setter (4.2), which lies
    outside [bridge.py]. (a) a missing value is a no-op; (b) the validator
    runs first and its refusal is [InvalidParameter], with the parameter and
    the value; (c) then the converter; (d) then the write to the location
    resolved with the interface name. *)
Definition _set_sysfs (self : Iface) (name : string) (p : ParameterSpec)
    (val : option value) : M unit :=
  match val with
  | None => ret tt
  | Some v =>
      if validate p v then
        match convert p with
        | None => _write_sysfs (location p (ifname self)) v
        | Some f =>
            match f v with
            | Some v' => _write_sysfs (location p (ifname self)) v'
            | None => raise (ConversionError name v)
            end
        end
      else raise (InvalidParameter name v)
  end.

(** Modelled from the spec: a command invocation (4.1, 4.2), which lies
    outside [bridge.py]: the command of the entry, with the value and the
    interface name filled in, goes to the command executor. *)
Definition _set_command (self : Iface) (name : string) (c : CommandSpec)
    (val : option value) : M unit :=
  match val with
  | None => ret tt
  | Some v => _cmd (shellcmd c (py_str v) (ifname self))
  end.

(** Modelled from the spec: [set_interface], which lies outside [bridge.py]:
    the registry resolves the name to a command or to a parameter, or to
    nothing. *)
Definition set_interface (self : Iface) (name : string)
    (val : option value) : M unit :=
  match dict_get (cls_command_set (cls self)) name with
  | Some c => _set_command self name c val
  | None =>
      match dict_get (cls_sysfs_set (cls self)) name with
      | Some p => _set_sysfs self name p val
      | None => raise (KeyError name)
      end
  end.

(** Modelled from the spec: [flush_addrs], which lies outside [bridge.py]:
    the address-flush collaborator (6) leaves the interface without an
    address. The flush is taken to succeed. *)
Definition flush_addrs (self : Iface) : M unit :=
  emit (FlushAddrs (ifname self)) ;;
  modify (with_addrs (delete (ifname self))).

(** Modelled from the spec: [set_admin_state], which lies outside
    [bridge.py]. The spec describes the counter twice, in opposite
    directions (3 and 4.2 against the scenario of 8); the comment at the end
    of [BridgeIf.update] settles it: "We will only enable the interface if
    'up' was called as often as 'down'". So the counter counts the requests
    for 'down' that are still open: 'down' adds one, and brings the link
    down when it was the first; 'up' takes one away, not below 0, and brings
    the link up when none is left. [applied] says whether the request
    reached the kernel. *)
Definition set_admin_state (self : Iface) (state : AdminDirection) : M unit :=
  cnt <- gets admin_state_down_cnt ;;
  match state with
  | up =>
      let cnt' := Nat.pred cnt in
      if decide (cnt' = 0%nat) then
        emit (AdminState (ifname self) up true) ;;
        modify (with_admin cnt' true)
      else
        emit (AdminState (ifname self) up false) ;;
        modify (λ w, with_admin cnt' (link_up w) w)
  | down =>
      let cnt' := S cnt in
      if decide (cnt = 0%nat) then
        emit (AdminState (ifname self) down true) ;;
        modify (with_admin cnt' false)
      else
        emit (AdminState (ifname self) down false) ;;
        modify (λ w, with_admin cnt' (link_up w) w)
  end.

(** Modelled from the spec: [Interface.update], which lies outside
    [bridge.py]. The pass of the spec (4.4) starts with the scalar
    parameters of the bridge: nothing of what is modelled here is done
    before them. *)
Definition update (self : Iface) (config : DesiredConfig) : M unit :=
  ret tt.

End Interface.

(** ** Spanning tree on the ports *)

Module STP.

(** Modelled from the spec: [vyos.ifconfig.stp.STP], which lies outside
    [bridge.py]. The two setters of a port (4.3): each checks that the value
    is positive and writes it, as it is, to a location of the port; a
    missing value is a no-op. *)
Definition _sysfs_set : list (string * ParameterSpec) :=
  [ ("path_cost",
      mkParameterSpec assert_positive None
        (λ ifname, "/sys/class/net/" +:+ ifname +:+ "/brport/path_cost"));
    ("path_priority",
      mkParameterSpec assert_positive None
        (λ ifname, "/sys/class/net/" +:+ ifname +:+ "/brport/priority")) ].

Definition set_path_cost (self : Iface) (cost : option value) : M unit :=
  Interface.set_interface self "path_cost" cost.

Definition set_path_priority (self : Iface) (prio : option value) : M unit :=
  Interface.set_interface self "path_priority" prio.

(** [STP.enable(adaptee)]: the class with the entries and the setters of
    the ports added. *)
Definition enable (adaptee : IfClass) : IfClass :=
  mkIfClass (dict_merge (cls_sysfs_set adaptee) _sysfs_set)
  (cls_command_set adaptee).

End STP.

(** ** The bridge *)

Module BridgeIf.

(** [lambda t: int(t) * 100] *)
Definition centiseconds (t : value) : option value :=
  z ← py_int t; Some (VInt (z * 100)).

Definition _sysfs_set : list (string * ParameterSpec) :=
  dict_merge Interface._sysfs_set
    [ ("ageing_time",
        mkParameterSpec assert_positive (Some centiseconds)
          (λ ifname, "/sys/class/net/" +:+ ifname +:+ "/bridge/ageing_time"));
      ("forward_delay",
        mkParameterSpec assert_positive (Some centiseconds)
          (λ ifname, "/sys/class/net/" +:+ ifname +:+ "/bridge/forward_delay"));
      ("hello_time",
        mkParameterSpec assert_positive (Some centiseconds)
          (λ ifname, "/sys/class/net/" +:+ ifname +:+ "/bridge/hello_time"));
      ("max_age",
        mkParameterSpec assert_positive (Some centiseconds)
          (λ ifname, "/sys/class/net/" +:+ ifname +:+ "/bridge/max_age"));
      ("priority",
        mkParameterSpec assert_positive None
          (λ ifname, "/sys/class/net/" +:+ ifname +:+ "/bridge/priority"));
      ("stp",
        mkParameterSpec assert_boolean None
          (λ ifname, "/sys/class/net/" +:+ ifname +:+ "/bridge/stp_state"));
      ("multicast_querier",
        mkParameterSpec assert_boolean None
          (λ ifname,
             "/sys/class/net/" +:+ ifname +:+ "/bridge/multicast_querier")) ].

Definition _command_set : list (string * CommandSpec) :=
  dict_merge Interface._command_set
    [ ("add_port", mkCommandSpec (λ val ifname, IpLinkSetMaster val ifname));
      ("del_port", mkCommandSpec (λ val ifname, IpLinkSetNomaster val)) ].

Definition class : IfClass := mkIfClass _sysfs_set _command_set.

(** [BridgeIf(ifname)] *)
Definition new (ifname : string) : Iface := mkIface class ifname.

Definition set_ageing_time (self : Iface) (time : option value) : M unit :=
  Interface.set_interface self "ageing_time" time.

Definition set_forward_delay (self : Iface) (time : option value) : M unit :=
  Interface.set_interface self "forward_delay" time.

Definition set_hello_time (self : Iface) (time : option value) : M unit :=
  Interface.set_interface self "hello_time" time.

Definition set_max_age (self : Iface) (time : option value) : M unit :=
  Interface.set_interface self "max_age" time.

Definition set_priority (self : Iface) (prio : option value) : M unit :=
  Interface.set_interface self "priority" prio.

Definition set_stp (self : Iface) (state : option value) : M unit :=
  Interface.set_interface self "stp" state.

Definition set_multicast_querier (self : Iface) (enable : option value)
    : M unit :=
  Interface.set_interface self "multicast_querier" enable.

Definition add_port (self : Iface) (interface : string) : M unit :=
  Interface.set_interface self "add_port" (Some (VStr interface)).

Definition del_port (self : Iface) (interface : string) : M unit :=
  Interface.set_interface self "del_port" (Some (VStr interface)).

(** [if tmp:] on what [vyos_dict_search] found: neither missing nor
    empty. *)
Definition truthy {A} (tmp : option (list A)) : bool :=
  match tmp with
  | Some (_ :: _) => true
  | _ => false
  end.

Definition update (self : Iface) (config : DesiredConfig) : M unit :=
  (* call base class first *)
  Interface.update self config ;;
  (* Set ageing time *)
  let value := aging config in
  set_ageing_time self value ;;
  (* set bridge forward delay *)
  let value := forwarding_delay config in
  set_forward_delay self value ;;
  (* set hello time *)
  let value := hello_time config in
  set_hello_time self value ;;
  (* set max message age *)
  let value := max_age config in
  set_max_age self value ;;
  (* set bridge priority *)
  let value := priority config in
  set_priority self value ;;
  (* enable/disable spanning tree *)
  let value := if stp config then VStr "1" else VStr "0" in
  set_stp self (Some value) ;;
  (* enable or disable IGMP querier *)
  let tmp := igmp config ≫= querier in
  let value := if tmp is Some _ then VStr "1" else VStr "0" in
  set_multicast_querier self (Some value) ;;
  (* remove interface from bridge *)
  let tmp := member config ≫= interface_remove in
  (if truthy tmp
   then for_each (default [] tmp) (λ member, del_port self member)
   else ret tt) ;;
  let STPBridgeIf := λ ifname, mkIface (STP.enable class) ifname in
  let tmp := member config ≫= interface in
  (if truthy tmp
   then for_each (default [] tmp) (λ '(interface, interface_config),
          (* flush the addresses that are left *)
          Interface.flush_addrs (Interface.new interface) ;;
          (* enslave interface port to bridge *)
          add_port self interface ;;
          let tmp := STPBridgeIf interface in
          (* set bridge port path cost *)
          let value := port_cost interface_config in
          STP.set_path_cost tmp value ;;
          (* set bridge port path priority *)
          let value := port_priority interface_config in
          STP.set_path_priority tmp value)
   else ret tt) ;;
  (* Enable/Disable of an interface must always be done at the end *)
  let state := if disable config then down else up in
  Interface.set_admin_state self state.

End BridgeIf.

(** ** The pass as a list of actions

    [update] never looks at the state it runs in: which setter it calls
    next, and with which value, is read off the dictionary.  So a pass is
    a list of actions, carried out one after the other until one raises.
    The definitions below say so; [update_run_all] proves that they
    describe [BridgeIf.update]. *)

Inductive Action :=
  | ASkip
  | AWrite (location : string) (v : value)
  | ACommand (c : ShellCmd)
  | AFlush (ifname : string)
  | AAdmin (ifname : string) (state : AdminDirection)
  | AFail (e : Error).

Definition perform (a : Action) : M unit :=
  match a with
  | ASkip => ret tt
  | AWrite l v => Interface._write_sysfs l v
  | ACommand c => Interface._cmd c
  | AFlush i => Interface.flush_addrs (Interface.new i)
  | AAdmin i s => Interface.set_admin_state (Interface.new i) s
  | AFail e => raise e
  end.

(** What the setter of a parameter comes to, for a given value. *)
Definition sysfs_action (self : Iface) (name : string) (p : ParameterSpec)
    (val : option value) : Action :=
  match val with
  | None => ASkip
  | Some v =>
      if validate p v then
        match convert p with
        | None => AWrite (location p (ifname self)) v
        | Some f =>
            match f v with
            | Some v' => AWrite (location p (ifname self)) v'
            | None => AFail (ConversionError name v)
            end
        end
      else AFail (InvalidParameter name v)
  end.

Definition interface_action (self : Iface) (name : string)
    (val : option value) : Action :=
  match dict_get (cls_command_set (cls self)) name with
  | Some c =>
      match val with
      | None => ASkip
      | Some v => ACommand (shellcmd c (py_str v) (ifname self))
      end
  | None =>
      match dict_get (cls_sysfs_set (cls self)) name with
      | Some p => sysfs_action self name p val
      | None => AFail (KeyError name)
      end
  end.

Definition step_error (a : Action) : option Error :=
  match a with
  | AFail e => Some e
  | _ => None
  end.

Definition admin_step (state : AdminDirection) (w : World) : World * bool :=
  let cnt := admin_state_down_cnt w in
  match state with
  | up =>
      if decide (Nat.pred cnt = 0%nat)
      then (with_admin (Nat.pred cnt) true w, true)
      else (with_admin (Nat.pred cnt) (link_up w) w, false)
  | down =>
      if decide (cnt = 0%nat)
      then (with_admin (S cnt) false w, true)
      else (with_admin (S cnt) (link_up w) w, false)
  end.

Definition step_world (a : Action) (w : World) : World :=
  match a with
  | ASkip | AFail _ => w
  | AWrite l v => with_sysfs (<[l := v]>) w
  | ACommand c => Interface.kernel_run c w
  | AFlush i => with_addrs (delete i) w
  | AAdmin _ s => (admin_step s w).1
  end.

Definition step_events (a : Action) (w : World) : list Event :=
  match a with
  | ASkip | AFail _ => []
  | AWrite l v => [SysfsWrite l v]
  | ACommand c => [Command c]
  | AFlush i => [FlushAddrs i]
  | AAdmin i s => [AdminState i s (admin_step s w).2]
  end.

Fixpoint run_all (l : list Action) (w : World) : Run unit :=
  match l with
  | [] => mkRun (Ok tt) w []
  | a :: l' =>
      match step_error a with
      | Some e => mkRun (Raise e) w []
      | None =>
          let r := run_all l' (step_world a w) in
          mkRun (result r) (world r) (step_events a w ++ events r)
      end
  end.

Definition port_actions (self : Iface) (port : string * PortConfig)
    : list Action :=
  let STPBridgeIf := mkIface (STP.enable BridgeIf.class) port.1 in
  [ AFlush port.1;
    interface_action self "add_port" (Some (VStr port.1));
    interface_action STPBridgeIf "path_cost" (port_cost port.2);
    interface_action STPBridgeIf "path_priority" (port_priority port.2) ].

Definition removed_ports (config : DesiredConfig) : list string :=
  default [] (member config ≫= interface_remove).

Definition joining_ports (config : DesiredConfig)
    : list (string * PortConfig) :=
  default [] (member config ≫= interface).

Definition stp_value (config : DesiredConfig) : value :=
  if stp config then VStr "1" else VStr "0".

Definition querier_value (config : DesiredConfig) : value :=
  if igmp config ≫= querier is Some _ then VStr "1" else VStr "0".

Definition requested_state (config : DesiredConfig) : AdminDirection :=
  if disable config then down else up.

Definition parameter_actions (self : Iface) (config : DesiredConfig)
    : list Action :=
  [ interface_action self "ageing_time" (aging config);
    interface_action self "forward_delay" (forwarding_delay config);
    interface_action self "hello_time" (hello_time config);
    interface_action self "max_age" (max_age config);
    interface_action self "priority" (priority config);
    interface_action self "stp" (Some (stp_value config));
    interface_action self "multicast_querier" (Some (querier_value config)) ].

Definition removal_actions (self : Iface) (config : DesiredConfig)
    : list Action :=
  map (λ p, interface_action self "del_port" (Some (VStr p)))
    (removed_ports config).

Definition addition_actions (self : Iface) (config : DesiredConfig)
    : list Action :=
  flat_map (port_actions self) (joining_ports config).

Definition pass_body (self : Iface) (config : DesiredConfig) : list Action :=
  parameter_actions self config ++ removal_actions self config
    ++ addition_actions self config.

Definition pass_actions (self : Iface) (config : DesiredConfig)
    : list Action :=
  pass_body self config ++ [AAdmin (ifname self) (requested_state config)].

(** ** What a list of actions leaves behind *)

(** The actions carried out: those before the first one that raises. *)
Fixpoint executed (l : list Action) : list Action :=
  match l with
  | [] => []
  | a :: l' =>
      match step_error a with
      | Some _ => []
      | None => a :: executed l'
      end
  end.

Fixpoint failure (l : list Action) : option Error :=
  match l with
  | [] => None
  | a :: l' =>
      match step_error a with
      | Some e => Some e
      | None => failure l'
      end
  end.

Definition is_admin (a : Action) : bool :=
  match a with
  | AAdmin _ _ => true
  | _ => false
  end.

Definition is_admin_event (ev : Event) : bool :=
  match ev with
  | AdminState _ _ _ => true
  | _ => false
  end.

(** The events of an action other than a request for the link state. *)
Definition body_events (a : Action) : list Event :=
  match a with
  | AWrite l v => [SysfsWrite l v]
  | ACommand c => [Command c]
  | AFlush i => [FlushAddrs i]
  | _ => []
  end.

(** A map takes a list of assignments: a key, and the value it gets or
    [None] when the key is removed. *)
Definition assign {V} (m : gmap string V) (kv : string * option V)
    : gmap string V :=
  partial_alter (λ _, kv.2) kv.1 m.

Definition assign_all {V} (l : list (string * option V)) (m : gmap string V)
    : gmap string V :=
  foldl assign m l.

Fixpoint last_assign {V} (k : string) (l : list (string * option V))
    : option (option V) :=
  match l with
  | [] => None
  | (k', o) :: l' =>
      match last_assign k l' with
      | Some o' => Some o'
      | None => if decide (k = k') then Some o else None
      end
  end.

Definition sysfs_assigns (a : Action) : list (string * option value) :=
  match a with
  | AWrite l v => [(l, Some v)]
  | _ => []
  end.

Definition master_assigns (a : Action) : list (string * option string) :=
  match a with
  | ACommand (IpLinkSetMaster dev br) => [(dev, Some br)]
  | ACommand (IpLinkSetNomaster dev) => [(dev, None)]
  | _ => []
  end.

Definition addrs_assigns (a : Action) : list (string * option (list string)) :=
  match a with
  | AFlush i => [(i, None)]
  | _ => []
  end.

(** ** The counter of the link state *)

(** The link is up exactly when no request for 'down' is open. *)
Definition admin_invariant (w : World) : Prop :=
  link_up w = true ↔ admin_state_down_cnt w = 0%nat.

(** One request after the other, on the same interface. *)
Definition admin_requests (self : Iface) (l : list AdminDirection) : M unit :=
  for_each l (Interface.set_admin_state self).

(** Modelled from the spec: the counter as 3 and 4.2 word it, taken to the
    letter, to set it against the scenario of 8: 'up' adds one and brings
    the link up when the count leaves 0; 'down' takes one away, not below
    0, and brings the link down when the count comes back to 0. *)
Definition set_admin_state_as_worded (state : AdminDirection) (w : World)
    : World :=
  let cnt := admin_state_down_cnt w in
  match state with
  | up => with_admin (S cnt) (if decide (cnt = 0%nat) then true else link_up w) w
  | down =>
      with_admin (Nat.pred cnt)
        (if decide (cnt = 1%nat) then false else link_up w) w
  end.

(** A bridge that was just made: nothing written, no port, no request for
    'down' open, link down. *)
Definition fresh_world : World := mkWorld ∅ ∅ ∅ 0 false.

(** [{forwarding_delay: 15, member: {interface: {"eth0": {"cost": 100}}}}],
    without a [disable] key. *)
Definition ordering_scenario : DesiredConfig :=
  {| aging := None; forwarding_delay := Some (VInt 15); hello_time := None;
     max_age := None; priority := None; stp := false; igmp := None;
     member :=
       Some {| interface :=
                 Some [("eth0", {| port_cost := Some (VInt 100);
                                   port_priority := None |})];
               interface_remove := None |};
     disable := false |}.

(** ** What the setters are asked for *)

(** For one setter given a positive [t]: the call returns, and its one effect is
    the write of [t * 100] to the file of the parameter. *)
Definition stores_centiseconds (setter : Iface → option value → M unit)
    (suffix : string) (br : string) (t : Z) (w : World) : Prop :=
  let loc := "/sys/class/net/" +:+ br +:+ suffix in
  let r := setter (BridgeIf.new br) (Some (VInt t)) w in
  result r = Ok tt
  ∧ events r = [SysfsWrite loc (VInt (t * 100))]
  ∧ world r = with_sysfs (<[loc := VInt (t * 100)]>) w
  ∧ ∃ stored, sysfs (world r) !! loc = Some (VInt stored) ∧ stored / 100 = t.

(** For one setter given a value it must refuse: the call raises [InvalidParameter] with the
    parameter and the value, the state is as before, nothing was done. *)
Definition refuses (setter : Iface → option value → M unit) (name : string)
    (br : string) (v : value) (w : World) : Prop :=
  setter (BridgeIf.new br) (Some v) w
  = mkRun (Raise (InvalidParameter name v)) w [].

(** ** Locations *)

(** The characters of a string, to compare the ends of two locations. *)
Definition chars : string → list Ascii.ascii := String.list_ascii_of_string.

(** Two endings of which neither ends with the other: locations that end
    with them differ, whatever the interface names in them. *)
Definition endings_differ (a b : string) : bool :=
  negb (bool_decide (chars a `suffix_of` chars b))
  && negb (bool_decide (chars b `suffix_of` chars a)).

(** What a setter stores for a value it accepts. *)
Definition converted (p : ParameterSpec) (v : value) : option value :=
  match convert p with
  | None => Some v
  | Some f => f v
  end.

(** The five scalar parameters of the bridge, each with the key of the
    dictionary that [update] reads for it. *)
Definition scalar_parameters : list (string * (DesiredConfig → option value)) :=
  [ ("ageing_time", aging);
    ("forward_delay", forwarding_delay);
    ("hello_time", hello_time);
    ("max_age", max_age);
    ("priority", priority) ].

Definition net_location (x ending : string) : string :=
  "/sys/class/net/" +:+ x +:+ ending.

(** The four timing parameters: the key of the dictionary and the ending
    of the location. *)
Definition timing_keys : list ((DesiredConfig → option value) * string) :=
  [ (aging, "/bridge/ageing_time");
    (forwarding_delay, "/bridge/forward_delay");
    (hello_time, "/bridge/hello_time");
    (max_age, "/bridge/max_age") ].

(** The writes a pass can make: the location and the value are read off
    the configuration. *)
Inductive pass_write (br : string) (config : DesiredConfig)
    (k : string) (v : value) : Prop :=
  | pw_timing get ending z :
      (get, ending) ∈ timing_keys → get config = Some (VInt z) → 0 < z →
      k = net_location br ending → v = VInt (z * 100) →
      pass_write br config k v
  | pw_priority z :
      priority config = Some (VInt z) → 0 < z →
      k = net_location br "/bridge/priority" → v = VInt z →
      pass_write br config k v
  | pw_stp :
      k = net_location br "/bridge/stp_state" → v = stp_value config →
      pass_write br config k v
  | pw_querier :
      k = net_location br "/bridge/multicast_querier" →
      v = querier_value config →
      pass_write br config k v
  | pw_path_cost p pc z :
      (p, pc) ∈ joining_ports config → port_cost pc = Some (VInt z) → 0 < z →
      k = net_location p "/brport/path_cost" → v = VInt z →
      pass_write br config k v
  | pw_path_priority p pc z :
      (p, pc) ∈ joining_ports config → port_priority pc = Some (VInt z) →
      0 < z →
      k = net_location p "/brport/priority" → v = VInt z →
      pass_write br config k v.

(** Every scalar parameter that the configuration sets is set to a
    positive integer: none of the five setters raises. *)
Definition scalars_accepted (config : DesiredConfig) : Prop :=
  ∀ name get, (name, get) ∈ scalar_parameters →
  ∀ v, get config = Some v → assert_positive v = true.

(** An event without the answer of the kernel: for a request for the link
    state, what was asked, not whether it was applied. *)
Definition request_of (ev : Event) : Event :=
  match ev with
  | AdminState i s _ => AdminState i s true
  | _ => ev
  end.

(** A bridge on which two requests for 'down' are open. *)
Definition held_down_twice : World :=
  world (admin_requests (BridgeIf.new "br0") [down; down] fresh_world).

(** A bridge on which one request for 'down' is open. *)
Definition held_down_once : World :=
  world (admin_requests (BridgeIf.new "br0") [down] fresh_world).

(** The configuration that asks for nothing. *)
Definition empty_config : DesiredConfig :=
  {| aging := None; forwarding_delay := None; hello_time := None;
     max_age := None; priority := None; stp := false; igmp := None;
     member := None; disable := false |}.

(** A parameter of a port in a pass that returns: written when the port
    has a value for it, left alone when it has none. *)
Definition port_parameter_applied (r : Run unit) (w : World)
    (loc : string) (val : option value) : Prop :=
  match val with
  | Some v => SysfsWrite loc v ∈ events r ∧ sysfs (world r) !! loc = Some v
  | None =>
      (∀ v, SysfsWrite loc v ∉ events r) ∧ sysfs (world r) !! loc = sysfs w !! loc
  end.

(** ** The class attributes of the bridge *)

(** A value of the [definition] dictionary of a class of interfaces. *)
Inductive attribute :=
  | AttrStr (s : string)
  | AttrList (l : list string)
  | AttrBool (b : bool).

(** [BridgeIf.default] *)
Definition bridge_default : list (string * attribute) :=
  [ ("type", AttrStr "bridge") ].

(** [BridgeIf.definition], over the [definition] of the base class, which
    [bridge.py] imports and unpacks first. *)
Definition bridge_definition (Interface_definition : list (string * attribute))
    : list (string * attribute) :=
  dict_merge Interface_definition
    [ ("section", AttrStr "bridge");
      ("prefixes", AttrList ["br"]);
      ("broadcast", AttrBool true) ].

(** The names of the parameters that [BridgeIf._sysfs_set] adds. *)
Definition bridge_parameter_names : list string :=
  [ "ageing_time"; "forward_delay"; "hello_time"; "max_age"; "priority";
    "stp"; "multicast_querier" ].

(** A port whose cost and priority, when given, are positive integers:
    neither of its two setters raises. *)
Definition port_accepted (port : string * PortConfig) : Prop :=
  (∀ v, port_cost port.2 = Some v → assert_positive v = true)
  ∧ (∀ v, port_priority port.2 = Some v → assert_positive v = true).

(** The setters of some of the scalar parameters, one after the other, each
    with the value that the configuration has for its key. *)
Definition set_scalars (self : Iface) (config : DesiredConfig)
    (l : list (string * (DesiredConfig → option value))) : M unit :=
  for_each l (λ '(name, get), Interface.set_interface self name (get config)).

(** In a log, every attachment of a port comes right after the flush of
    the addresses of that port. *)
Definition flushed_before_attach (l : list Event) : Prop :=
  ∀ i dev m,
    l !! i = Some (Command (IpLinkSetMaster dev m)) →
    ∃ j, i = S j ∧ l !! j = Some (FlushAddrs dev).

(** The commands of a log, in the order they were run. *)
Definition commands_of (l : list Event) : list ShellCmd :=
  omap (λ ev, if ev is Command c then Some c else None) l.

Definition action_commands (a : Action) : list ShellCmd :=
  match a with
  | ACommand c => [c]
  | _ => []
  end.

(** A pass gets as far as attaching [port]: the scalar parameters are
    accepted, and so are the ports that [member.interface] lists before
    it.  Every pass that returns does, for each of its ports. *)
Definition reaches_port (config : DesiredConfig) (port : string) : Prop :=
  scalars_accepted config
  ∧ ∃ before pc after,
      joining_ports config = before ++ (port, pc) :: after
      ∧ Forall port_accepted before.

(** * Properties *)

(** ** Values *)

Example py_int_decimal :
  py_int (VInt 15) = Some 15 ∧ py_int (VStr "300") = Some 300
  ∧ py_int (VStr "-12") = Some (-12) ∧ py_int (VStr "+7") = Some 7
  ∧ py_int (VStr "007") = Some 7
  ∧ py_int (VStr EmptyString) = None ∧ py_int (VStr "1a") = None
  ∧ py_int (VStr "-") = None ∧ py_int (VStr "+ 5") = None.
Proof. repeat split. Qed.

Example py_int_blanks_and_underscores :
  py_int (VStr " 15 ") = Some 15
  ∧ py_int (VStr (String "009" (String "010" "30"))) = Some 30
  ∧ py_int (VStr "  -4 ") = Some (-4)
  ∧ py_int (VStr "1_000") = Some 1000 ∧ py_int (VStr "1_0_0") = Some 100
  ∧ py_int (VStr "_1") = None ∧ py_int (VStr "1_") = None
  ∧ py_int (VStr "1__0") = None ∧ py_int (VStr "1 0") = None
  ∧ py_int (VStr "   ") = None.
Proof. repeat split. Qed.

Example centiseconds_of_seconds :
  BridgeIf.centiseconds (VInt 2) = Some (VInt 200)
  ∧ BridgeIf.centiseconds (VStr "30") = Some (VInt 3000)
  ∧ BridgeIf.centiseconds (VStr "soon") = None.
Proof. repeat split. Qed.

Example shell_text_of_ports :
  shell_text (IpLinkSetMaster "eth0" "br0") = "ip link set dev eth0 master br0"
  ∧ shell_text (IpLinkSetNomaster "eth1") = "ip link set dev eth1 nomaster".
Proof. repeat split. Qed.

(** ** The monad and the action lists *)

Lemma run_eta {A} (r : Run A) : mkRun (result r) (world r) (events r) = r.
Proof. by destruct r. Qed.

Lemma bind_ret_l {A B} (a : A) (f : A → M B) w : bind (ret a) f w = f a w.
Proof. unfold bind, ret; simpl. apply run_eta. Qed.

Lemma set_interface_perform self name val w :
  Interface.set_interface self name val w
  = perform (interface_action self name val) w.
Proof.
  unfold Interface.set_interface, interface_action.
  destruct (dict_get (cls_command_set (cls self)) name) as [c|].
  - by destruct val.
  - destruct (dict_get (cls_sysfs_set (cls self)) name) as [p|]; [|done].
    unfold Interface._set_sysfs, sysfs_action.
    destruct val as [v|]; [|done].
    destruct (validate p v); [|done].
    destruct (convert p) as [f|]; [|done].
    by destruct (f v).
Qed.

Lemma perform_step a w :
  perform a w =
  match step_error a with
  | Some e => mkRun (Raise e) w []
  | None => mkRun (Ok tt) (step_world a w) (step_events a w)
  end.
Proof.
  destruct a as [| | | |i s|]; try reflexivity.
  destruct s; cbn; unfold admin_step;
    unfold Interface.set_admin_state, bind, gets; simpl;
    case_decide; reflexivity.
Qed.

Lemma run_all_single a w : run_all [a] w = perform a w.
Proof.
  rewrite perform_step. simpl. destruct (step_error a); [done|].
  by rewrite app_nil_r.
Qed.

Lemma run_all_cons_bind (m : M unit) (k : M unit) a l w :
  (∀ w, m w = perform a w) → (∀ w, k w = run_all l w) →
  bind m (λ _, k) w = run_all (a :: l) w.
Proof.
  intros Hm Hk. unfold bind. rewrite Hm, perform_step. simpl.
  destruct (step_error a); simpl; [done|]. by rewrite Hk.
Qed.

Lemma run_all_app l1 l2 w :
  run_all (l1 ++ l2) w =
  match result (run_all l1 w) with
  | Ok _ =>
      let r := run_all l2 (world (run_all l1 w)) in
      mkRun (result r) (world r) (events (run_all l1 w) ++ events r)
  | Raise e => run_all l1 w
  end.
Proof.
  revert w. induction l1 as [|a l1 IH]; intros w; simpl.
  - apply eq_sym, run_eta.
  - destruct (step_error a); simpl; [done|].
    rewrite IH.
    destruct (run_all l1 (step_world a w)) as [[[]|e] w' ev]; simpl;
      [by rewrite app_assoc|done].
Qed.

Lemma run_all_app_bind (m : M unit) (k : M unit) l1 l2 w :
  (∀ w, m w = run_all l1 w) → (∀ w, k w = run_all l2 w) →
  bind m (λ _, k) w = run_all (l1 ++ l2) w.
Proof.
  intros Hm Hk. rewrite run_all_app. unfold bind. rewrite Hm.
  destruct (run_all l1 w) as [[[]|e] w' ev]; simpl; [|done]. by rewrite Hk.
Qed.

Lemma for_each_run_all {A} (l : list A) (body : A → M unit)
    (g : A → list Action) w :
  (∀ x w, body x w = run_all (g x) w) →
  for_each l body w = run_all (flat_map g l) w.
Proof.
  intros Hb. revert w. induction l as [|x l IH]; intros w; [done|].
  simpl. by apply run_all_app_bind.
Qed.

Lemma flat_map_unit {A B} (f : A → B) (l : list A) :
  flat_map (λ x, [f x]) l = map f l.
Proof. induction l; simpl; congruence. Qed.

Lemma truthy_default {A} (tmp : option (list A)) (f : A → M unit) w :
  (if BridgeIf.truthy tmp then for_each (default [] tmp) f else ret tt) w
  = for_each (default [] tmp) f w.
Proof. by destruct tmp as [[|]|]. Qed.

(** [BridgeIf.update] carries out the actions of [pass_actions], in that
    order, up to the first one that raises. *)
Lemma update_run_all self config w :
  BridgeIf.update self config w = run_all (pass_actions self config) w.
Proof.
  unfold BridgeIf.update, Interface.update. rewrite bind_ret_l.
  unfold pass_actions, pass_body, parameter_actions.
  rewrite <-!app_assoc. simpl app.
  repeat (apply run_all_cons_bind; [intros; apply set_interface_perform|];
          intros ?).
  apply run_all_app_bind.
  { intros w'. rewrite truthy_default. unfold removal_actions.
    rewrite <-flat_map_unit.
    apply for_each_run_all. intros p w''. unfold BridgeIf.del_port.
    by rewrite set_interface_perform, run_all_single. }
  intros w'. apply run_all_app_bind.
  { intros w''. rewrite truthy_default. apply for_each_run_all.
    intros [p pc] ?. unfold port_actions.
    apply run_all_cons_bind; [done|]. intros ?.
    repeat (apply run_all_cons_bind; [intros; apply set_interface_perform|];
            intros ?).
    unfold STP.set_path_priority.
    by rewrite set_interface_perform, run_all_single. }
  intros w''. by rewrite run_all_single.
Qed.

(** ** Assignments to a map *)

Section assignments.
Context {V : Type}.
Implicit Types (m : gmap string V) (l : list (string * option V)).

Lemma lookup_assign_all l m k :
  assign_all l m !! k = default (m !! k) (last_assign k l).
Proof.
  revert m. induction l as [|[k' o] l IH]; intros m; [done|].
  simpl. unfold assign_all in *. simpl. rewrite IH.
  destruct (last_assign k l); [done|]. simpl.
  unfold assign; simpl. rewrite lookup_partial_alter.
  case_decide; case_decide; by simplify_eq.
Qed.

Lemma assign_all_app l1 l2 m :
  assign_all (l1 ++ l2) m = assign_all l2 (assign_all l1 m).
Proof. apply foldl_app. Qed.

Lemma last_assign_app k l1 l2 :
  last_assign k (l1 ++ l2)
  = match last_assign k l2 with
    | Some o => Some o
    | None => last_assign k l1
    end.
Proof.
  induction l1 as [|[k' o] l1 IH]; simpl.
  - by destruct (last_assign k l2).
  - rewrite IH. by destruct (last_assign k l2).
Qed.

(** Taking the same assignments a second time changes nothing. *)
Lemma assign_all_twice l m : assign_all l (assign_all l m) = assign_all l m.
Proof.
  apply map_eq; intros k. rewrite !lookup_assign_all.
  by destruct (last_assign k l).
Qed.

Lemma last_assign_None k l :
  last_assign k l = None ↔ ∀ o, (k, o) ∉ l.
Proof.
  induction l as [|[k' o'] l IH]; simpl.
  - split; [|done]. intros _ o. apply not_elem_of_nil.
  - destruct (last_assign k l) as [o''|].
    + split; [done|]. intros H. destruct IH as [_ IH].
      assert (Some o'' = None) as Hn; [|done].
      apply IH. intros o Ho. apply (H o). by right.
    + case_decide as Hk.
      * split; [done|]. intros H. destruct (H o'). subst. by left.
      * split; [|done]. intros _ o Ho.
        apply elem_of_cons in Ho as [Ho|Ho]; [by simplify_eq|].
        destruct IH as [IH _]. by apply (IH eq_refl o).
Qed.

Lemma last_assign_Some k l o :
  last_assign k l = Some o → (k, o) ∈ l.
Proof.
  induction l as [|[k' o'] l IH]; simpl; [done|].
  destruct (last_assign k l) as [o''|].
  - intros [= ->]. right. by apply IH.
  - case_decide; [|done]. intros [= ->]. subst. by left.
Qed.

End assignments.

(** ** What a run leaves behind *)

Lemma executed_app l1 l2 :
  executed (l1 ++ l2)
  = if failure l1 is Some _ then executed l1
    else executed l1 ++ executed l2.
Proof.
  induction l1 as [|a l1 IH]; simpl; [done|].
  destruct (step_error a); [done|]. rewrite IH. by destruct (failure l1).
Qed.

Lemma failure_app l1 l2 :
  failure (l1 ++ l2) = if failure l1 is Some e then Some e else failure l2.
Proof.
  induction l1 as [|a l1 IH]; simpl; [done|]. by destruct (step_error a).
Qed.

Lemma result_run_all l w :
  result (run_all l w) = if failure l is Some e then Raise e else Ok tt.
Proof.
  revert w. induction l as [|a l IH]; intros w; simpl; [done|].
  destruct (step_error a); simpl; [done|]. apply IH.
Qed.

Lemma failure_None_executed l : failure l = None → executed l = l.
Proof.
  induction l as [|a l IH]; simpl; [done|].
  destruct (step_error a); [done|]. intros H. by rewrite IH.
Qed.

Lemma admin_step_fields s w :
  sysfs (admin_step s w).1 = sysfs w
  ∧ master (admin_step s w).1 = master w
  ∧ addrs (admin_step s w).1 = addrs w.
Proof. unfold admin_step. destruct s; case_decide; done. Qed.

Lemma sysfs_step a w :
  sysfs (step_world a w) = assign_all (sysfs_assigns a) (sysfs w).
Proof.
  destruct a as [| | c | | i s |]; try done.
  - by destruct c.
  - apply admin_step_fields.
Qed.

Lemma master_step a w :
  master (step_world a w) = assign_all (master_assigns a) (master w).
Proof.
  destruct a as [| | c | | i s |]; try done.
  - by destruct c.
  - apply admin_step_fields.
Qed.

Lemma addrs_step a w :
  addrs (step_world a w) = assign_all (addrs_assigns a) (addrs w).
Proof.
  destruct a as [| | c | | i s |]; try done.
  - by destruct c.
  - apply admin_step_fields.
Qed.

Lemma sysfs_run_all l w :
  sysfs (world (run_all l w))
  = assign_all (flat_map sysfs_assigns (executed l)) (sysfs w).
Proof.
  revert w. induction l as [|a l IH]; intros w; simpl; [done|].
  destruct (step_error a); simpl; [done|].
  by rewrite IH, sysfs_step, assign_all_app.
Qed.

Lemma master_run_all l w :
  master (world (run_all l w))
  = assign_all (flat_map master_assigns (executed l)) (master w).
Proof.
  revert w. induction l as [|a l IH]; intros w; simpl; [done|].
  destruct (step_error a); simpl; [done|].
  by rewrite IH, master_step, assign_all_app.
Qed.

Lemma addrs_run_all l w :
  addrs (world (run_all l w))
  = assign_all (flat_map addrs_assigns (executed l)) (addrs w).
Proof.
  revert w. induction l as [|a l IH]; intros w; simpl; [done|].
  destruct (step_error a); simpl; [done|].
  by rewrite IH, addrs_step, assign_all_app.
Qed.

Lemma body_step a w :
  is_admin a = false →
  step_events a w = body_events a
  ∧ admin_state_down_cnt (step_world a w) = admin_state_down_cnt w
  ∧ link_up (step_world a w) = link_up w.
Proof. destruct a as [| | c | | |]; try done. by destruct c. Qed.

Lemma body_run_all l w :
  Forall (λ a, is_admin a = false) l →
  events (run_all l w) = flat_map body_events (executed l)
  ∧ admin_state_down_cnt (world (run_all l w)) = admin_state_down_cnt w
  ∧ link_up (world (run_all l w)) = link_up w.
Proof.
  intros Hl. revert w. induction Hl as [|a l Ha Hl IH]; intros w; simpl; [done|].
  destruct (step_error a); simpl; [done|].
  destruct (body_step a w Ha) as (-> & Hc & Hl').
  destruct (IH (step_world a w)) as (-> & -> & ->). done.
Qed.

Lemma body_events_not_admin l :
  Forall (λ ev, is_admin_event ev = false) (flat_map body_events l).
Proof.
  induction l as [|a l IH]; simpl; [done|].
  apply Forall_app. split; [|done].
  destruct a; simpl; repeat constructor.
Qed.

Lemma interface_action_not_admin self name val :
  is_admin (interface_action self name val) = false.
Proof.
  unfold interface_action, sysfs_action.
  repeat case_match; done.
Qed.

Lemma pass_body_not_admin self config :
  Forall (λ a, is_admin a = false) (pass_body self config).
Proof.
  unfold pass_body. rewrite !Forall_app. split_and!.
  - unfold parameter_actions.
    repeat (constructor; [apply interface_action_not_admin|]). constructor.
  - unfold removal_actions. apply Forall_map, Forall_forall. intros p _.
    apply interface_action_not_admin.
  - unfold addition_actions. apply Forall_flat_map, Forall_forall.
    intros port _. unfold port_actions.
    constructor; [done|].
    repeat (constructor; [apply interface_action_not_admin|]). constructor.
Qed.

(** *** The summary of a pass *)

Section body_then_admin.
Context (l : list Action) (i : string) (s : AdminDirection) (w : World).
Context (Hl : Forall (λ a, is_admin a = false) l).

Let r := run_all (l ++ [AAdmin i s]) w.

Lemma failure_then_admin : failure (l ++ [AAdmin i s]) = failure l.
Proof. rewrite failure_app. by destruct (failure l). Qed.

Lemma executed_then_admin :
  executed (l ++ [AAdmin i s])
  = if failure l is Some _ then executed l else l ++ [AAdmin i s].
Proof.
  rewrite executed_app. destruct (failure l) eqn:Hf; [done|].
  by rewrite failure_None_executed.
Qed.

Lemma assigns_then_admin {V} (f : Action → list (string * option V)) :
  f (AAdmin i s) = [] →
  flat_map f (executed (l ++ [AAdmin i s])) = flat_map f (executed l).
Proof.
  intros Hf. rewrite executed_then_admin.
  destruct (failure l) eqn:Hfl; [done|].
  rewrite flat_map_app. simpl. rewrite Hf, !app_nil_r.
  by rewrite failure_None_executed.
Qed.

Lemma events_then_admin :
  events r
  = flat_map body_events (executed l)
    ++ if failure l is Some _ then []
       else [AdminState i s (admin_step s w).2].
Proof.
  unfold r. rewrite run_all_app, result_run_all.
  destruct (body_run_all l w Hl) as (Hev & Hcnt & Hlnk).
  destruct (failure l) eqn:Hf.
  - by rewrite Hev, app_nil_r.
  - simpl. rewrite Hev. do 3 f_equal.
    unfold admin_step. rewrite Hcnt, Hlnk.
    destruct s; by case_decide.
Qed.

Lemma admin_then_admin :
  (admin_state_down_cnt (world r), link_up (world r))
  = if failure l is Some _ then (admin_state_down_cnt w, link_up w)
    else (admin_state_down_cnt (admin_step s w).1, link_up (admin_step s w).1).
Proof.
  unfold r. rewrite run_all_app, result_run_all.
  destruct (body_run_all l w Hl) as (Hev & Hcnt & Hlnk).
  destruct (failure l) eqn:Hf.
  - by rewrite Hcnt, Hlnk.
  - simpl. unfold admin_step. rewrite Hcnt, Hlnk.
    destruct s; by case_decide.
Qed.

End body_then_admin.

Section pass.
Context (self : Iface) (config : DesiredConfig) (w : World).

Let r := BridgeIf.update self config w.
Let body := pass_body self config.

Lemma update_result :
  result r = if failure body is Some e then Raise e else Ok tt.
Proof.
  unfold r, body. rewrite update_run_all, result_run_all.
  unfold pass_actions. by rewrite failure_then_admin.
Qed.

Lemma update_succeeds : succeeds r ↔ failure body = None.
Proof.
  unfold succeeds. rewrite update_result. destruct (failure body).
  - split; [by intros [? ?]|done].
  - split; [done|]. intros _. by exists tt.
Qed.

Lemma update_sysfs :
  sysfs (world r) = assign_all (flat_map sysfs_assigns (executed body)) (sysfs w).
Proof.
  unfold r, body. rewrite update_run_all, sysfs_run_all.
  unfold pass_actions. by rewrite assigns_then_admin.
Qed.

Lemma update_master :
  master (world r)
  = assign_all (flat_map master_assigns (executed body)) (master w).
Proof.
  unfold r, body. rewrite update_run_all, master_run_all.
  unfold pass_actions. by rewrite assigns_then_admin.
Qed.

Lemma update_addrs :
  addrs (world r)
  = assign_all (flat_map addrs_assigns (executed body)) (addrs w).
Proof.
  unfold r, body. rewrite update_run_all, addrs_run_all.
  unfold pass_actions. by rewrite assigns_then_admin.
Qed.

Lemma update_events :
  events r
  = flat_map body_events (executed body)
    ++ if failure body is Some _ then []
       else [AdminState (ifname self) (requested_state config)
               (admin_step (requested_state config) w).2].
Proof.
  unfold r, body. rewrite update_run_all. unfold pass_actions.
  apply events_then_admin, pass_body_not_admin.
Qed.

Lemma update_admin :
  (admin_state_down_cnt (world r), link_up (world r))
  = if failure body is Some _ then (admin_state_down_cnt w, link_up w)
    else
      (admin_state_down_cnt (admin_step (requested_state config) w).1,
       link_up (admin_step (requested_state config) w).1).
Proof.
  unfold r, body. rewrite update_run_all. unfold pass_actions.
  apply admin_then_admin, pass_body_not_admin.
Qed.

End pass.

(** ** The order of a pass *)

(** C1.  On the configuration with [forwarding_delay] 15, the port eth0 of
    cost 100 and no [disable] key, a pass does, in this order: the write of
    [forward_delay], the flush of the addresses of eth0, the attachment of
    eth0, the write of the path cost of eth0, and the request to bring the
    link up (between the first two it also writes the spanning-tree state
    and the multicast querier, which are written on every pass).  And on
    every configuration, a pass that returns ends with its request for the
    link state, which is the only one of the pass; a pass that raises makes
    none. *)
Theorem C1_order_and_admin_state_last :
  (∀ br w, ∃ applied,
     let log := events (BridgeIf.update (BridgeIf.new br) ordering_scenario w) in
     log =
       [ SysfsWrite ("/sys/class/net/" +:+ br +:+ "/bridge/forward_delay") (VInt 1500);
         SysfsWrite ("/sys/class/net/" +:+ br +:+ "/bridge/stp_state") (VStr "0");
         SysfsWrite ("/sys/class/net/" +:+ br +:+ "/bridge/multicast_querier")
           (VStr "0");
         FlushAddrs "eth0";
         Command (IpLinkSetMaster "eth0" br);
         SysfsWrite "/sys/class/net/eth0/brport/path_cost" (VInt 100);
         AdminState br up applied ]
     ∧ [ SysfsWrite ("/sys/class/net/" +:+ br +:+ "/bridge/forward_delay") (VInt 1500);
         FlushAddrs "eth0";
         Command (IpLinkSetMaster "eth0" br);
         SysfsWrite "/sys/class/net/eth0/brport/path_cost" (VInt 100);
         AdminState br up applied ] `sublist_of` log)
  ∧ (∀ self config w,
       let r := BridgeIf.update self config w in
       match result r with
       | Ok _ =>
           ∃ before applied,
             events r
             = before ++ [AdminState (ifname self)
                            (if disable config then down else up) applied]
             ∧ Forall (λ ev, is_admin_event ev = false) before
       | Raise _ => Forall (λ ev, is_admin_event ev = false) (events r)
       end).
Proof.
  split.
  - intros br w. exists (admin_step up w).2. cbv zeta.
    rewrite update_events.
    match goal with |- ?l = ?l' ∧ _ => assert (l = l') as -> end;
      [vm_compute; reflexivity|].
    split; [done|].
    repeat first [apply sublist_nil | apply sublist_skip | apply sublist_cons].
  - intros self config w. cbv zeta.
    rewrite update_result, update_events.
    destruct (failure (pass_body self config)).
    + rewrite app_nil_r. apply body_events_not_admin.
    + eexists _, _. split; [reflexivity|]. apply body_events_not_admin.
Qed.

(** ** The counter of the link state *)

Lemma set_admin_state_world self s w :
  world (Interface.set_admin_state self s w) = (admin_step s w).1.
Proof.
  unfold Interface.set_admin_state, admin_step, bind, gets. simpl.
  destruct s; case_decide; reflexivity.
Qed.

Lemma admin_step_invariant s w :
  admin_invariant w → admin_invariant (admin_step s w).1.
Proof.
  unfold admin_invariant, admin_step. intros Hw.
  destruct s; case_decide; simpl; split; try done; try lia.
  - intros Hl. apply Hw in Hl. lia.
  - intros Hl. apply Hw in Hl. lia.
Qed.

(** C2, as the code has it.  The counter counts the requests for 'down'
    that are still open: the link is up exactly when the count is 0, and
    every request keeps it so; a request for 'down' adds one to the count,
    a request for 'up' takes one away, never below 0.  From count 0, the
    requests down, down, up leave the count at 1 and the link down; one
    more 'up' brings the count to 0 and the link up. *)
Theorem C2_counter_of_open_down_requests (self : Iface) (w : World) :
  (∀ s, admin_invariant w →
        admin_invariant (world (Interface.set_admin_state self s w)))
  ∧ admin_state_down_cnt (world (Interface.set_admin_state self down w))
    = S (admin_state_down_cnt w)
  ∧ admin_state_down_cnt (world (Interface.set_admin_state self up w))
    = Nat.pred (admin_state_down_cnt w)
  ∧ (admin_state_down_cnt w = 0%nat →
     let w3 := world (admin_requests self [down; down; up] w) in
     let r4 := Interface.set_admin_state self up w3 in
     admin_state_down_cnt w3 = 1%nat ∧ link_up w3 = false
     ∧ admin_state_down_cnt (world r4) = 0%nat ∧ link_up (world r4) = true
     ∧ events r4 = [AdminState (ifname self) up true]).
Proof.
  split_and!.
  - intros s Hw. rewrite set_admin_state_world. by apply admin_step_invariant.
  - rewrite set_admin_state_world. unfold admin_step. by case_decide.
  - rewrite set_admin_state_world. unfold admin_step. by case_decide.
  - intros Hw. destruct w as [sy ma ad cnt lnk]. simpl in Hw. subst cnt.
    repeat split.
Qed.

Lemma C2_counter_witness :
  let self := BridgeIf.new "br0" in
  let w := mkWorld ∅ ∅ ∅ 0 true in
  admin_invariant w
  ∧ admin_invariant (world (Interface.set_admin_state self down w))
  ∧ admin_state_down_cnt (world (admin_requests self [down; down; up] w))
    = 1%nat
  ∧ link_up (world (admin_requests self [down; down; up] w)) = false.
Proof.
  intros self w.
  destruct (C2_counter_of_open_down_requests self w) as (Hinv & _ & _ & Hsc).
  assert (admin_invariant w) as Hw by (split; reflexivity).
  destruct (Hsc eq_refl) as (H1 & H2 & _).
  exact (conj Hw (conj (Hinv down Hw) (conj H1 H2))).
Defined.

(** C2 as it is stated does not hold.  With the counter of the source
    comment, one request for 'down' on a fresh bridge leaves the count at
    1, above 0, with the link down: 'down' did not take one away, and the
    link is not up although the count is above 0.  With the counter as the
    spec words it, the count after down, down, up is 1 as well, but the
    link is up, and one more 'up' makes the count 2, not 0. *)
Lemma C2_counterexample :
  (let w1 := world (Interface.set_admin_state (BridgeIf.new "br0") down
                      fresh_world) in
   admin_state_down_cnt w1 = 1%nat
   ∧ link_up w1 = false
   ∧ ¬ (link_up w1 = true ↔ (0 < admin_state_down_cnt w1)%nat)
   ∧ admin_state_down_cnt w1 ≠ Nat.pred (admin_state_down_cnt fresh_world))
  ∧ (let w3 := foldl (λ w s, set_admin_state_as_worded s w) fresh_world
                 [down; down; up] in
     admin_state_down_cnt w3 = 1%nat
     ∧ link_up w3 = true
     ∧ admin_state_down_cnt (set_admin_state_as_worded up w3) = 2%nat).
Proof.
  split.
  - cbv zeta. rewrite set_admin_state_world. simpl.
    split_and!; try done. intros [_ H]. discriminate H. lia.
  - repeat split.
Qed.

(** ** The setters of the bridge *)

Lemma interface_action_sysfs self name p val :
  dict_get (cls_command_set (cls self)) name = None →
  dict_get (cls_sysfs_set (cls self)) name = Some p →
  interface_action self name val = sysfs_action self name p val.
Proof. unfold interface_action. by intros -> ->. Qed.

Lemma centiseconds_int z : BridgeIf.centiseconds (VInt z) = Some (VInt (z * 100)).
Proof. reflexivity. Qed.

(** A timing parameter of the bridge: a positive number of seconds goes to
    the file as centiseconds. *)
Lemma timing_setter_positive br name suffix t w :
  dict_get BridgeIf._command_set name = None →
  dict_get BridgeIf._sysfs_set name
  = Some (mkParameterSpec assert_positive (Some BridgeIf.centiseconds)
            (λ ifname, "/sys/class/net/" +:+ ifname +:+ suffix)) →
  0 < t →
  Interface.set_interface (BridgeIf.new br) name (Some (VInt t)) w
  = mkRun (Ok tt)
      (with_sysfs (<["/sys/class/net/" +:+ br +:+ suffix := VInt (t * 100)]>) w)
      [SysfsWrite ("/sys/class/net/" +:+ br +:+ suffix) (VInt (t * 100))].
Proof.
  intros Hc Hs Ht. rewrite set_interface_perform.
  rewrite (interface_action_sysfs (BridgeIf.new br) name _ _ Hc Hs).
  unfold sysfs_action. simpl.
  by rewrite (proj2 (Z.ltb_lt 0 t) Ht).
Qed.

(** A parameter checked by [assert_positive]: whatever is not a positive
    integer is refused before anything is done. *)
Lemma positive_setter_refuses br name conv loc v w :
  dict_get BridgeIf._command_set name = None →
  dict_get BridgeIf._sysfs_set name
  = Some (mkParameterSpec assert_positive conv loc) →
  assert_positive v = false →
  Interface.set_interface (BridgeIf.new br) name (Some v) w
  = mkRun (Raise (InvalidParameter name v)) w [].
Proof.
  intros Hc Hs Hv. rewrite set_interface_perform.
  rewrite (interface_action_sysfs (BridgeIf.new br) name _ _ Hc Hs).
  unfold sysfs_action. simpl. by rewrite Hv.
Qed.

Lemma assert_positive_false v :
  (∃ z, v = VInt z ∧ z ≤ 0) ∨ (∃ s, v = VStr s) → assert_positive v = false.
Proof.
  intros [(z & -> & Hz)|(s & ->)]; simpl; [|done]. by apply Z.ltb_ge.
Qed.

Lemma stores_centiseconds_intro setter name suffix br t w :
  (∀ self val, setter self val = Interface.set_interface self name val) →
  dict_get BridgeIf._command_set name = None →
  dict_get BridgeIf._sysfs_set name
  = Some (mkParameterSpec assert_positive (Some BridgeIf.centiseconds)
            (λ ifname, "/sys/class/net/" +:+ ifname +:+ suffix)) →
  0 < t →
  stores_centiseconds setter suffix br t w.
Proof.
  intros Hset Hc Hs Ht. unfold stores_centiseconds. cbv zeta.
  rewrite Hset, (timing_setter_positive _ _ _ _ _ Hc Hs Ht). simpl.
  split_and!; try done.
  exists (t * 100). split; [apply lookup_insert_eq|].
  apply Z.div_mul. lia.
Qed.

(** C5.  For every positive integer [t], each of the setters of the timing
    parameters [ageing_time], [forward_delay], [hello_time] and [max_age],
    given [t], writes [t * 100] to the file of its parameter, so that what
    is stored, divided by 100, is [t]. *)
Theorem C5_timing_parameters_in_centiseconds (br : string) (t : Z) (w : World) :
  0 < t →
  stores_centiseconds BridgeIf.set_ageing_time "/bridge/ageing_time" br t w
  ∧ stores_centiseconds BridgeIf.set_forward_delay "/bridge/forward_delay" br t w
  ∧ stores_centiseconds BridgeIf.set_hello_time "/bridge/hello_time" br t w
  ∧ stores_centiseconds BridgeIf.set_max_age "/bridge/max_age" br t w.
Proof.
  intros Ht.
  split_and!; by eapply stores_centiseconds_intro.
Qed.

Lemma C5_timing_witness :
  (0 < 15)
  ∧ stores_centiseconds BridgeIf.set_forward_delay "/bridge/forward_delay"
      "br0" 15 fresh_world.
Proof.
  assert (0 < 15) as Ht by lia.
  split; [exact Ht|].
  exact (proj1 (proj2
    (C5_timing_parameters_in_centiseconds "br0" 15 fresh_world Ht))).
Defined.

(** C6.  Each of the setters checked for positivity ([ageing_time],
    [forward_delay], [hello_time], [max_age], [priority]), given an integer
    that is not positive or a value that is not an integer, raises
    [InvalidParameter] and writes nothing: the state is the one before the
    call and the log is empty. *)
Theorem C6_positivity_checked_before_write (br : string) (v : value) (w : World) :
  (∃ z, v = VInt z ∧ z ≤ 0) ∨ (∃ s, v = VStr s) →
  refuses BridgeIf.set_ageing_time "ageing_time" br v w
  ∧ refuses BridgeIf.set_forward_delay "forward_delay" br v w
  ∧ refuses BridgeIf.set_hello_time "hello_time" br v w
  ∧ refuses BridgeIf.set_max_age "max_age" br v w
  ∧ refuses BridgeIf.set_priority "priority" br v w.
Proof.
  intros Hv%assert_positive_false.
  split_and!; by eapply positive_setter_refuses.
Qed.

Lemma C6_positivity_witness :
  ((∃ z, VInt 0 = VInt z ∧ z ≤ 0) ∨ (∃ s, VInt 0 = VStr s))
  ∧ refuses BridgeIf.set_priority "priority" "br0" (VInt 0) fresh_world
  ∧ refuses BridgeIf.set_max_age "max_age" "br0" (VStr "soon") fresh_world.
Proof.
  assert ((∃ z, VInt 0 = VInt z ∧ z ≤ 0) ∨ (∃ s, VInt 0 = VStr s)) as H0
    by (left; exists 0; split; [reflexivity|lia]).
  split; [exact H0|]. split.
  - exact (proj2 (proj2 (proj2 (proj2
      (C6_positivity_checked_before_write "br0" (VInt 0) fresh_world H0))))).
  - refine (proj1 (proj2 (proj2 (proj2
      (C6_positivity_checked_before_write "br0" (VStr "soon") fresh_world _))))).
    right. by exists "soon".
Defined.

(** ** Locations *)

Lemma chars_app s1 s2 : chars (s1 +:+ s2) = chars s1 ++ chars s2.
Proof.
  unfold chars. induction s1 as [|a s1 IH]; [done|].
  cbn [String.append]. simpl. by rewrite IH.
Qed.

Lemma chars_inj s1 s2 : chars s1 = chars s2 → s1 = s2.
Proof.
  intros H. rewrite <-(String.string_of_list_ascii_of_string s1).
  rewrite <-(String.string_of_list_ascii_of_string s2).
  unfold chars in H. by rewrite H.
Qed.

Lemma net_location_endings x a y b :
  "/sys/class/net/" +:+ x +:+ a = "/sys/class/net/" +:+ y +:+ b →
  endings_differ a b = false.
Proof.
  intros H%String.app_inj.
  assert (chars a `suffix_of` chars (x +:+ a)) as Ha
    by (rewrite chars_app; by apply suffix_app_r).
  assert (chars b `suffix_of` chars (x +:+ a)) as Hb
    by (rewrite H, chars_app; by apply suffix_app_r).
  unfold endings_differ.
  destruct (suffix_weak_total _ _ _ Ha Hb) as [Hs|Hs].
  - by rewrite (bool_decide_eq_true_2 _ Hs).
  - rewrite (bool_decide_eq_true_2 _ Hs). apply andb_false_r.
Qed.

Lemma net_location_inj x y a :
  "/sys/class/net/" +:+ x +:+ a = "/sys/class/net/" +:+ y +:+ a → x = y.
Proof.
  intros H%String.app_inj. apply chars_inj.
  apply (f_equal chars) in H. rewrite !chars_app in H.
  by apply app_inv_tail in H.
Qed.

(** ** The writes of a pass *)

Lemma assert_positive_true v :
  assert_positive v = true → ∃ z, v = VInt z ∧ 0 < z.
Proof.
  destruct v as [z|s]; simpl; [|done]. intros H%Z.ltb_lt. by exists z.
Qed.

Lemma sysfs_action_write self name p val k v :
  AWrite k v = sysfs_action self name p val →
  ∃ v0, val = Some v0 ∧ validate p v0 = true ∧ converted p v0 = Some v
        ∧ k = location p (ifname self).
Proof.
  unfold sysfs_action, converted. destruct val as [v0|]; [|done].
  destruct (validate p v0) eqn:Hval; [|done].
  destruct (convert p) as [f|].
  - destruct (f v0) eqn:Hf; [|done]. intros [= -> ->]. by exists v0.
  - intros [= -> ->]. by exists v0.
Qed.

Lemma del_port_action br p :
  interface_action (BridgeIf.new br) "del_port" (Some (VStr p))
  = ACommand (IpLinkSetNomaster p).
Proof. reflexivity. Qed.

Lemma add_port_action br p :
  interface_action (BridgeIf.new br) "add_port" (Some (VStr p))
  = ACommand (IpLinkSetMaster p br).
Proof. reflexivity. Qed.

Lemma stp_action br config :
  interface_action (BridgeIf.new br) "stp" (Some (stp_value config))
  = AWrite (net_location br "/bridge/stp_state") (stp_value config).
Proof. unfold stp_value. by destruct (stp config). Qed.

Lemma querier_action br config :
  interface_action (BridgeIf.new br) "multicast_querier"
    (Some (querier_value config))
  = AWrite (net_location br "/bridge/multicast_querier") (querier_value config).
Proof. unfold querier_value. by destruct (igmp config ≫= querier). Qed.

Ltac sysfs_write_inv H :=
  erewrite interface_action_sysfs in H by reflexivity;
  apply sysfs_action_write in H
    as (? & ? & [? [-> ?]]%assert_positive_true & ? & ?);
  unfold converted in *; simpl in *; rewrite ?centiseconds_int in *;
  simplify_eq.

Lemma body_write_inv br config k v :
  AWrite k v ∈ pass_body (BridgeIf.new br) config → pass_write br config k v.
Proof.
  unfold pass_body. rewrite !elem_of_app. intros [H|[H|H]].
  - unfold parameter_actions in H.
    repeat (apply elem_of_cons in H as [H|H]).
    + sysfs_write_inv H.
      eapply (pw_timing _ _ _ _ aging); [|done..]. set_solver.
    + sysfs_write_inv H.
      eapply (pw_timing _ _ _ _ forwarding_delay); [|done..]. set_solver.
    + sysfs_write_inv H.
      eapply (pw_timing _ _ _ _ hello_time); [|done..]. set_solver.
    + sysfs_write_inv H.
      eapply (pw_timing _ _ _ _ max_age); [|done..]. set_solver.
    + sysfs_write_inv H. by eapply pw_priority.
    + rewrite stp_action in H. simplify_eq. by apply pw_stp.
    + rewrite querier_action in H. simplify_eq. by apply pw_querier.
    + by apply elem_of_nil in H.
  - unfold removal_actions in H. apply list_elem_of_fmap in H as (p & H & _).
    by rewrite del_port_action in H.
  - unfold addition_actions in H.
    apply list_elem_of_In, in_flat_map in H as ([p pc] & Hp & H).
    apply list_elem_of_In in Hp, H. unfold port_actions in H. simpl in H.
    repeat (apply elem_of_cons in H as [H|H]).
    + done.
    + by rewrite add_port_action in H.
    + sysfs_write_inv H. by eapply pw_path_cost.
    + sysfs_write_inv H. by eapply pw_path_priority.
    + by apply elem_of_nil in H.
Qed.

Lemma net_location_clash x a y b :
  net_location x a = net_location y b → endings_differ a b = false.
Proof. apply net_location_endings. Qed.

Lemma net_location_same x y a : net_location x a = net_location y a → x = y.
Proof. apply net_location_inj. Qed.

(** Two locations with endings that differ cannot be the same. *)
Ltac clash :=
  match goal with
  | H : net_location _ _ = net_location _ _ |- _ =>
      apply net_location_clash in H; vm_compute in H; discriminate H
  end.

Ltac timing_cases H :=
  unfold timing_keys in H;
  repeat (apply elem_of_cons in H as [H|H]);
  [simplify_eq H; intros; subst.. | by apply elem_of_nil in H].

Lemma body_write_intro br config k v :
  pass_write br config k v → AWrite k v ∈ pass_body (BridgeIf.new br) config.
Proof.
  unfold pass_body. rewrite !elem_of_app.
  intros [get ending z Hk Hg Hz -> -> | z Hg Hz -> -> | -> -> | -> ->
         | p pc z Hp Hg Hz -> -> | p pc z Hp Hg Hz -> ->].
  - left. unfold parameter_actions.
    apply Z.ltb_lt in Hz.
    timing_cases Hk; rewrite Hg.
    + apply elem_of_cons; left.
      erewrite interface_action_sysfs by reflexivity.
      unfold sysfs_action; simpl. by rewrite Hz.
    + do 1 (apply elem_of_cons; right). apply elem_of_cons; left.
      erewrite interface_action_sysfs by reflexivity.
      unfold sysfs_action; simpl. by rewrite Hz.
    + do 2 (apply elem_of_cons; right). apply elem_of_cons; left.
      erewrite interface_action_sysfs by reflexivity.
      unfold sysfs_action; simpl. by rewrite Hz.
    + do 3 (apply elem_of_cons; right). apply elem_of_cons; left.
      erewrite interface_action_sysfs by reflexivity.
      unfold sysfs_action; simpl. by rewrite Hz.
  - left. unfold parameter_actions. apply Z.ltb_lt in Hz. rewrite Hg.
    do 4 (apply elem_of_cons; right). apply elem_of_cons; left.
    erewrite interface_action_sysfs by reflexivity.
    unfold sysfs_action; simpl. by rewrite Hz.
  - left. unfold parameter_actions.
    do 5 (apply elem_of_cons; right). apply elem_of_cons; left.
    by rewrite stp_action.
  - left. unfold parameter_actions.
    do 6 (apply elem_of_cons; right). apply elem_of_cons; left.
    by rewrite querier_action.
  - right; right. unfold addition_actions.
    apply list_elem_of_In, in_flat_map. exists (p, pc).
    split; [by apply list_elem_of_In|]. apply list_elem_of_In.
    unfold port_actions. simpl. rewrite Hg. apply Z.ltb_lt in Hz.
    do 2 (apply elem_of_cons; right). apply elem_of_cons; left.
    erewrite interface_action_sysfs by reflexivity.
    unfold sysfs_action; simpl. by rewrite Hz.
  - right; right. unfold addition_actions.
    apply list_elem_of_In, in_flat_map. exists (p, pc).
    split; [by apply list_elem_of_In|]. apply list_elem_of_In.
    unfold port_actions. simpl. rewrite Hg. apply Z.ltb_lt in Hz.
    do 3 (apply elem_of_cons; right). apply elem_of_cons; left.
    erewrite interface_action_sysfs by reflexivity.
    unfold sysfs_action; simpl. by rewrite Hz.
Qed.

(** *** The writes to one location *)

Lemma pass_write_timing br config get ending v :
  (get, ending) ∈ timing_keys →
  pass_write br config (net_location br ending) v
  ↔ ∃ z, get config = Some (VInt z) ∧ 0 < z ∧ v = VInt (z * 100).
Proof.
  intros Hk. split.
  - intros [get' ending' z Hk' Hg Hz Heq -> | z Hg Hz Heq -> | Heq -> | Heq ->
           | p pc z Hp Hg Hz Heq -> | p pc z Hp Hg Hz Heq ->];
      timing_cases Hk; try clash;
      timing_cases Hk'; try clash; by exists z.
  - intros (z & Hg & Hz & ->). by eapply pw_timing.
Qed.

Lemma pass_write_priority br config v :
  pass_write br config (net_location br "/bridge/priority") v
  ↔ ∃ z, priority config = Some (VInt z) ∧ 0 < z ∧ v = VInt z.
Proof.
  split.
  - intros [get' ending' z Hk' Hg Hz Heq -> | z Hg Hz Heq -> | Heq -> | Heq ->
           | p pc z Hp Hg Hz Heq -> | p pc z Hp Hg Hz Heq ->];
      try clash; [timing_cases Hk'; clash | by exists z].
  - intros (z & Hg & Hz & ->). by eapply pw_priority.
Qed.

Lemma pass_write_stp br config v :
  pass_write br config (net_location br "/bridge/stp_state") v
  ↔ v = stp_value config.
Proof.
  split.
  - intros [get' ending' z Hk' Hg Hz Heq -> | z Hg Hz Heq -> | Heq -> | Heq ->
           | p pc z Hp Hg Hz Heq -> | p pc z Hp Hg Hz Heq ->];
      try clash; [timing_cases Hk'; clash | done].
  - intros ->. by apply pw_stp.
Qed.

Lemma pass_write_querier br config v :
  pass_write br config (net_location br "/bridge/multicast_querier") v
  ↔ v = querier_value config.
Proof.
  split.
  - intros [get' ending' z Hk' Hg Hz Heq -> | z Hg Hz Heq -> | Heq -> | Heq ->
           | p pc z Hp Hg Hz Heq -> | p pc z Hp Hg Hz Heq ->];
      try clash; [timing_cases Hk'; clash | done].
  - intros ->. by apply pw_querier.
Qed.

Lemma pass_write_path_cost br config p v :
  pass_write br config (net_location p "/brport/path_cost") v
  ↔ ∃ pc z, (p, pc) ∈ joining_ports config ∧ port_cost pc = Some (VInt z)
            ∧ 0 < z ∧ v = VInt z.
Proof.
  split.
  - intros [get' ending' z Hk' Hg Hz Heq -> | z Hg Hz Heq -> | Heq -> | Heq ->
           | p' pc z Hp Hg Hz Heq -> | p' pc z Hp Hg Hz Heq ->];
      try clash; [timing_cases Hk'; clash |].
    apply net_location_same in Heq as ->. by exists pc, z.
  - intros (pc & z & Hp & Hg & Hz & ->). by eapply pw_path_cost.
Qed.

Lemma pass_write_path_priority br config p v :
  pass_write br config (net_location p "/brport/priority") v
  ↔ ∃ pc z, (p, pc) ∈ joining_ports config ∧ port_priority pc = Some (VInt z)
            ∧ 0 < z ∧ v = VInt z.
Proof.
  split.
  - intros [get' ending' z Hk' Hg Hz Heq -> | z Hg Hz Heq -> | Heq -> | Heq ->
           | p' pc z Hp Hg Hz Heq -> | p' pc z Hp Hg Hz Heq ->];
      try clash; [timing_cases Hk'; clash |].
    apply net_location_same in Heq as ->. by exists pc, z.
  - intros (pc & z & Hp & Hg & Hz & ->). by eapply pw_path_priority.
Qed.

(** *** From the writes of a pass to the files and the log *)

Lemma executed_subseteq a l : a ∈ executed l → a ∈ l.
Proof.
  induction l as [|b l IH]; simpl; [done|].
  destruct (step_error b); [by intros ?%elem_of_nil|].
  intros [->|H]%elem_of_cons; [by left|]. right. by apply IH.
Qed.

Lemma write_event_action l k v :
  SysfsWrite k v ∈ flat_map body_events l ↔ AWrite k v ∈ l.
Proof.
  induction l as [|a l IH]; simpl.
  - split; by intros ?%elem_of_nil.
  - rewrite elem_of_app, elem_of_cons, IH.
    destruct a; simpl; rewrite ?elem_of_nil, ?list_elem_of_singleton;
      intuition (simplify_eq; eauto).
Qed.

Lemma sysfs_assign_action l k o :
  (k, o) ∈ flat_map sysfs_assigns l ↔ ∃ v, o = Some v ∧ AWrite k v ∈ l.
Proof.
  induction l as [|a l IH]; simpl.
  - split; [by intros ?%elem_of_nil|]. by intros (? & _ & ?%elem_of_nil).
  - rewrite elem_of_app, IH. split.
    + intros [H|(v & -> & H)].
      * destruct a; simpl in H; try by apply elem_of_nil in H.
        apply list_elem_of_singleton in H. simplify_eq.
        eexists. split; [done|]. by left.
      * exists v. split; [done|]. by right.
    + intros (v & -> & [<-|H]%elem_of_cons).
      * left. simpl. by apply list_elem_of_singleton.
      * right. by exists v.
Qed.

Section pass_writes.
Context (br : string) (config : DesiredConfig) (w : World).

Let r := BridgeIf.update (BridgeIf.new br) config w.
Let body := pass_body (BridgeIf.new br) config.

Lemma update_write_event k v :
  SysfsWrite k v ∈ events r → pass_write br config k v.
Proof.
  unfold r. rewrite update_events, elem_of_app. intros [H|H].
  - apply write_event_action, executed_subseteq in H. by apply body_write_inv.
  - destruct (failure _); [by apply elem_of_nil in H|].
    by apply list_elem_of_singleton in H.
Qed.

Lemma update_executed_event k v :
  AWrite k v ∈ executed body → SysfsWrite k v ∈ events r.
Proof.
  intros Hw. unfold r. rewrite update_events, elem_of_app. left.
  by apply write_event_action.
Qed.

Lemma update_written_event k v :
  succeeds r → pass_write br config k v → SysfsWrite k v ∈ events r.
Proof.
  intros Hok%update_succeeds Hw. apply update_executed_event.
  unfold body. rewrite (failure_None_executed _ Hok).
  by apply body_write_intro.
Qed.

Lemma update_lookup_unwritten k :
  (∀ v, ¬ pass_write br config k v) → sysfs (world r) !! k = sysfs w !! k.
Proof.
  intros Hno. unfold r. rewrite update_sysfs, lookup_assign_all.
  destruct (last_assign k _) as [o|] eqn:Hl; [|done].
  apply last_assign_Some, sysfs_assign_action in Hl as (v & -> & Hv).
  apply executed_subseteq, body_write_inv in Hv. by destruct (Hno v).
Qed.

Lemma update_lookup_executed k v :
  AWrite k v ∈ executed body →
  (∀ v', pass_write br config k v' → v' = v) →
  sysfs (world r) !! k = Some v.
Proof.
  intros Hw Hfun. unfold r. rewrite update_sysfs, lookup_assign_all.
  destruct (last_assign k _) as [o|] eqn:Hl.
  - apply last_assign_Some, sysfs_assign_action in Hl as (v' & -> & Hv).
    apply executed_subseteq, body_write_inv, Hfun in Hv. by subst.
  - exfalso. apply (proj1 (last_assign_None _ _) Hl (Some v)).
    apply sysfs_assign_action. by exists v.
Qed.

Lemma update_lookup_written k v :
  succeeds r → pass_write br config k v →
  (∀ v', pass_write br config k v' → v' = v) →
  sysfs (world r) !! k = Some v.
Proof.
  intros Hok%update_succeeds Hw. apply update_lookup_executed.
  unfold body. rewrite (failure_None_executed _ Hok).
  by apply body_write_intro.
Qed.

End pass_writes.

(** ** The scalar parameters *)

Lemma failure_None_step l a :
  failure l = None → a ∈ l → step_error a = None.
Proof.
  induction l as [|b l IH]; simpl; [by intros _ ?%elem_of_nil|].
  destruct (step_error b) eqn:Hb; [done|].
  intros Hf [->|Ha]%elem_of_cons; [done|]. by apply IH.
Qed.

Lemma parameter_actions_body self config a :
  a ∈ parameter_actions self config → a ∈ pass_body self config.
Proof. intros H. unfold pass_body. apply elem_of_app. by left. Qed.

Lemma scalar_parameter_pass name p get br config w :
  dict_get BridgeIf._command_set name = None →
  dict_get BridgeIf._sysfs_set name = Some p →
  interface_action (BridgeIf.new br) name (get config)
    ∈ pass_body (BridgeIf.new br) config →
  (∀ v, pass_write br config (location p br) v
        ↔ ∃ v0, get config = Some v0 ∧ validate p v0 = true
                ∧ converted p v0 = Some v) →
  let r := BridgeIf.update (BridgeIf.new br) config w in
  (get config = None →
     sysfs (world r) !! location p br = sysfs w !! location p br
     ∧ ∀ v, SysfsWrite (location p br) v ∉ events r)
  ∧ (∀ v, get config = Some v →
       (validate p v = false → ¬ succeeds r)
       ∧ (succeeds r →
          ∃ v', validate p v = true ∧ converted p v = Some v'
                ∧ SysfsWrite (location p br) v' ∈ events r
                ∧ sysfs (world r) !! location p br = Some v')).
Proof.
  intros Hc Hs Hin Hw r. split.
  - intros Hnone.
    assert (∀ v, ¬ pass_write br config (location p br) v) as Hno.
    { intros v (v0 & Hv0 & _)%Hw. congruence. }
    split; [by apply update_lookup_unwritten|].
    intros v Hev%update_write_event. by destruct (Hno v).
  - intros v Hv.
    rewrite Hv, (interface_action_sysfs (BridgeIf.new br) _ _ _ Hc Hs) in Hin.
    unfold sysfs_action in Hin.
    split.
    + intros Hval Hok%update_succeeds. rewrite Hval in Hin.
      by pose proof (failure_None_step _ _ Hok Hin).
    + intros Hok. pose proof Hok as Hf%update_succeeds.
      pose proof (failure_None_step _ _ Hf Hin) as Hstep.
      destruct (validate p v) eqn:Hval; [|done].
      assert (∃ v', converted p v = Some v') as [v' Hconv].
      { unfold converted. destruct (convert p) as [f|]; [|by eexists].
        destruct (f v); [by eexists|done]. }
      assert (pass_write br config (location p br) v') as Hpw.
      { apply Hw. by exists v. }
      exists v'. split_and!; try done.
      * by apply update_written_event.
      * apply update_lookup_written; [done..|].
        intros v'' (v0 & Hv0 & _ & Hc0)%Hw. congruence.
Qed.

Lemma timing_write_iff get ending br config v :
  (get, ending) ∈ timing_keys →
  pass_write br config (net_location br ending) v
  ↔ ∃ v0, get config = Some v0 ∧ assert_positive v0 = true
          ∧ BridgeIf.centiseconds v0 = Some v.
Proof.
  intros Hk. rewrite (pass_write_timing _ _ _ _ _ Hk). split.
  - intros (z & Hg & Hz & ->). exists (VInt z).
    split_and!; [done| by apply Z.ltb_lt | done].
  - intros (v0 & Hg & (z & -> & Hz)%assert_positive_true & Hc).
    rewrite centiseconds_int in Hc. exists z. by simplify_eq.
Qed.

Lemma priority_write_iff br config v :
  pass_write br config (net_location br "/bridge/priority") v
  ↔ ∃ v0, priority config = Some v0 ∧ assert_positive v0 = true
          ∧ Some v0 = Some v.
Proof.
  rewrite pass_write_priority. split.
  - intros (z & Hg & Hz & ->). exists (VInt z).
    split_and!; [done| by apply Z.ltb_lt | done].
  - intros (v0 & Hg & (z & -> & Hz)%assert_positive_true & Hc).
    exists z. by simplify_eq.
Qed.

(** C3.  For each of the scalar parameters [ageing_time], [forward_delay],
    [hello_time], [max_age] and [priority]: when its key is missing from
    the configuration, a pass leaves the file of the parameter as it was
    and does not write to it; when the key is there, its setter gets the
    value of the key: a pass that returns has written what the setter
    stores for that value, and a value that the setter refuses makes the
    pass raise. *)
Theorem C3_scalar_parameters_skip_on_absent
    (name : string) (get : DesiredConfig → option value) (p : ParameterSpec)
    (br : string) (config : DesiredConfig) (w : World) :
  (name, get) ∈ scalar_parameters →
  dict_get BridgeIf._sysfs_set name = Some p →
  let r := BridgeIf.update (BridgeIf.new br) config w in
  (get config = None →
     sysfs (world r) !! location p br = sysfs w !! location p br
     ∧ ∀ v, SysfsWrite (location p br) v ∉ events r)
  ∧ (∀ v, get config = Some v →
       (validate p v = false → ¬ succeeds r)
       ∧ (succeeds r →
          ∃ v', validate p v = true ∧ converted p v = Some v'
                ∧ SysfsWrite (location p br) v' ∈ events r
                ∧ sysfs (world r) !! location p br = Some v')).
Proof.
  intros Hn Hp. unfold scalar_parameters in Hn.
  repeat (apply elem_of_cons in Hn as [Hn|Hn]);
    [simplify_eq Hn; intros; subst.. | by apply elem_of_nil in Hn].
  - apply (scalar_parameter_pass "ageing_time" p aging); [done|done| |].
    + apply parameter_actions_body. unfold parameter_actions. set_solver.
    + injection Hp as <-. intros v.
      apply (timing_write_iff aging "/bridge/ageing_time"). set_solver.
  - apply (scalar_parameter_pass "forward_delay" p forwarding_delay);
      [done|done| |].
    + apply parameter_actions_body. unfold parameter_actions. set_solver.
    + injection Hp as <-. intros v.
      apply (timing_write_iff forwarding_delay "/bridge/forward_delay").
      set_solver.
  - apply (scalar_parameter_pass "hello_time" p hello_time); [done|done| |].
    + apply parameter_actions_body. unfold parameter_actions. set_solver.
    + injection Hp as <-. intros v.
      apply (timing_write_iff hello_time "/bridge/hello_time"). set_solver.
  - apply (scalar_parameter_pass "max_age" p max_age); [done|done| |].
    + apply parameter_actions_body. unfold parameter_actions. set_solver.
    + injection Hp as <-. intros v.
      apply (timing_write_iff max_age "/bridge/max_age"). set_solver.
  - apply (scalar_parameter_pass "priority" p priority); [done|done| |].
    + apply parameter_actions_body. unfold parameter_actions. set_solver.
    + injection Hp as <-. intros v. apply priority_write_iff.
Qed.

Lemma C3_scalar_witness :
  let r := BridgeIf.update (BridgeIf.new "br0") ordering_scenario fresh_world in
  (sysfs (world r) !! "/sys/class/net/br0/bridge/ageing_time" = None)
  ∧ ∃ v', BridgeIf.centiseconds (VInt 15) = Some v'
          ∧ SysfsWrite "/sys/class/net/br0/bridge/forward_delay" v' ∈ events r.
Proof.
  intros r. split.
  - refine (proj1 (proj1
      (C3_scalar_parameters_skip_on_absent "ageing_time" aging _ "br0"
         ordering_scenario fresh_world _ eq_refl) eq_refl)).
    unfold scalar_parameters. apply elem_of_cons. by left.
  - assert (("forward_delay", forwarding_delay) ∈ scalar_parameters) as Hin.
    { unfold scalar_parameters. apply elem_of_cons. right.
      apply elem_of_cons. by left. }
    assert (succeeds r) as Hok by (exists tt; vm_compute; reflexivity).
    destruct (proj2 (proj2
      (C3_scalar_parameters_skip_on_absent "forward_delay" forwarding_delay _
         "br0" ordering_scenario fresh_world Hin eq_refl)
      (VInt 15) eq_refl) Hok) as (v' & _ & Hc & Hev & _).
    exists v'. split; [exact Hc | exact Hev].
Defined.

(** ** Spanning tree and the multicast querier *)

Lemma executed_prefix l1 l2 a :
  failure l1 = None → a ∈ l1 → a ∈ executed (l1 ++ l2).
Proof.
  intros Hf Ha. rewrite executed_app, Hf, (failure_None_executed _ Hf).
  apply elem_of_app. by left.
Qed.

Lemma scalars_accepted_failure br config :
  scalars_accepted config →
  failure (parameter_actions (BridgeIf.new br) config) = None.
Proof.
  intros Hacc.
  assert (∀ name get suffix conv,
    (name, get) ∈ scalar_parameters →
    dict_get BridgeIf._command_set name = None →
    dict_get BridgeIf._sysfs_set name
    = Some (mkParameterSpec assert_positive conv suffix) →
    (∀ z, converted (mkParameterSpec assert_positive conv suffix) (VInt z)
          ≠ None) →
    step_error (interface_action (BridgeIf.new br) name (get config)) = None)
    as Hstep.
  { intros name get suffix conv Hin Hc Hs Hconv.
    rewrite (interface_action_sysfs (BridgeIf.new br) _ _ _ Hc Hs).
    unfold sysfs_action. destruct (get config) as [v|] eqn:Hg; [|done].
    pose proof (Hacc _ _ Hin _ Hg) as Hv. simpl. rewrite Hv.
    apply assert_positive_true in Hv as (z & -> & _).
    specialize (Hconv z). unfold converted in Hconv. simpl in Hconv.
    destruct conv as [f|]; [|done]. by destruct (f (VInt z)). }
  unfold parameter_actions. simpl.
  repeat (erewrite Hstep;
    [ | unfold scalar_parameters; set_solver | reflexivity | reflexivity
      | intros z; unfold converted; simpl; by rewrite ?centiseconds_int ]).
  by rewrite stp_action, querier_action.
Qed.

(** C4.  In a pass that gets past the scalar parameters, whatever happens
    at the ports later on, the spanning-tree state and the multicast
    querier are always written: the spanning-tree state is 1 when the
    configuration has an [stp] key and 0 when it has none, the querier is 1
    when [igmp.querier] is there with a value and 0 otherwise.  So with no
    [stp] key, spanning tree that was enabled before the pass is disabled
    by it. *)
Theorem C4_stp_and_querier_always_written
    (br : string) (config : DesiredConfig) (w : World) :
  scalars_accepted config →
  let r := BridgeIf.update (BridgeIf.new br) config w in
  let stp_state := "/sys/class/net/" +:+ br +:+ "/bridge/stp_state" in
  let multicast_querier :=
    "/sys/class/net/" +:+ br +:+ "/bridge/multicast_querier" in
  let stp_enabled := VStr (if stp config then "1" else "0") in
  let querier_enabled :=
    VStr (if igmp config ≫= querier is Some _ then "1" else "0") in
  SysfsWrite stp_state stp_enabled ∈ events r
  ∧ sysfs (world r) !! stp_state = Some stp_enabled
  ∧ SysfsWrite multicast_querier querier_enabled ∈ events r
  ∧ sysfs (world r) !! multicast_querier = Some querier_enabled
  ∧ (stp config = false → sysfs w !! stp_state = Some (VStr "1") →
     sysfs (world r) !! stp_state = Some (VStr "0")).
Proof.
  intros Hacc%(scalars_accepted_failure br) r stp_state multicast_querier
    stp_enabled querier_enabled.
  assert (stp_enabled = stp_value config) as ->
    by (unfold stp_enabled, stp_value; by destruct (stp config)).
  assert (querier_enabled = querier_value config) as ->
    by (unfold querier_enabled, querier_value;
        by destruct (igmp config ≫= querier)).
  assert (AWrite stp_state (stp_value config)
            ∈ executed (pass_body (BridgeIf.new br) config)) as Hstp.
  { unfold pass_body. apply executed_prefix; [done|].
    unfold parameter_actions. rewrite stp_action. set_solver. }
  assert (AWrite multicast_querier (querier_value config)
            ∈ executed (pass_body (BridgeIf.new br) config)) as Hmq.
  { unfold pass_body. apply executed_prefix; [done|].
    unfold parameter_actions. rewrite querier_action. set_solver. }
  assert (sysfs (world r) !! stp_state = Some (stp_value config)) as Hs.
  { apply update_lookup_executed; [done|].
    by intros v' ->%pass_write_stp. }
  split_and!.
  - by apply update_executed_event.
  - done.
  - by apply update_executed_event.
  - apply update_lookup_executed; [done|].
    by intros v' ->%pass_write_querier.
  - intros Hno _. rewrite Hs. unfold stp_value. by rewrite Hno.
Qed.

Lemma C4_stp_witness :
  let w := mkWorld {["/sys/class/net/br0/bridge/stp_state" := VStr "1"]} ∅ ∅
             0 true in
  scalars_accepted ordering_scenario
  ∧ sysfs w !! "/sys/class/net/br0/bridge/stp_state" = Some (VStr "1")
  ∧ sysfs (world (BridgeIf.update (BridgeIf.new "br0") ordering_scenario w))
      !! "/sys/class/net/br0/bridge/stp_state" = Some (VStr "0").
Proof.
  intros w.
  assert (scalars_accepted ordering_scenario) as Hacc.
  { intros name get Hin v Hg. unfold scalar_parameters in Hin.
    repeat (apply elem_of_cons in Hin as [Hin|Hin]);
      [injection Hin as -> ->; simpl in Hg; try discriminate Hg..
      | by apply elem_of_nil in Hin].
    injection Hg as <-. reflexivity. }
  split; [exact Hacc|]. split; [reflexivity|].
  exact (proj2 (proj2 (proj2 (proj2
    (C4_stp_and_querier_always_written "br0" ordering_scenario w Hacc))))
    eq_refl eq_refl).
Defined.

(** ** Ports *)

Lemma sysfs_action_no_command self name p val c :
  sysfs_action self name p val ≠ ACommand c.
Proof. unfold sysfs_action. repeat case_match; done. Qed.

Lemma sysfs_action_master self name p val :
  master_assigns (sysfs_action self name p val) = [].
Proof. unfold sysfs_action. repeat case_match; done. Qed.

Lemma parameter_actions_no_command br config c :
  ACommand c ∉ parameter_actions (BridgeIf.new br) config.
Proof.
  unfold parameter_actions. rewrite stp_action, querier_action.
  repeat (erewrite interface_action_sysfs by reflexivity).
  intros H. repeat (apply elem_of_cons in H as [H|H]);
    try (by apply eq_sym, sysfs_action_no_command in H);
    try done. by apply elem_of_nil in H.
Qed.

Lemma removal_actions_eq br config :
  removal_actions (BridgeIf.new br) config
  = map (λ p, ACommand (IpLinkSetNomaster p)) (removed_ports config).
Proof. reflexivity. Qed.

Lemma port_actions_commands br port c :
  ACommand c ∈ port_actions (BridgeIf.new br) port →
  c = IpLinkSetMaster port.1 br.
Proof.
  unfold port_actions. rewrite add_port_action.
  repeat (erewrite interface_action_sysfs by reflexivity).
  intros H. repeat (apply elem_of_cons in H as [H|H]);
    try (by apply eq_sym, sysfs_action_no_command in H);
    try done; [by simplify_eq | by apply elem_of_nil in H].
Qed.

Lemma port_actions_master br port :
  flat_map master_assigns (port_actions (BridgeIf.new br) port)
  = [(port.1, Some br)].
Proof.
  unfold port_actions. rewrite add_port_action.
  repeat (erewrite interface_action_sysfs by reflexivity).
  simpl. by rewrite !sysfs_action_master.
Qed.

Lemma addition_actions_master br config :
  flat_map master_assigns (addition_actions (BridgeIf.new br) config)
  = map (λ port, (port.1, Some br)) (joining_ports config).
Proof.
  unfold addition_actions.
  induction (joining_ports config) as [|port l IH]; [done|].
  cbn [flat_map map]. by rewrite flat_map_app, port_actions_master, IH.
Qed.

Lemma command_event_action l c :
  Command c ∈ flat_map body_events l ↔ ACommand c ∈ l.
Proof.
  induction l as [|a l IH]; simpl.
  - split; by intros ?%elem_of_nil.
  - rewrite elem_of_app, elem_of_cons, IH.
    destruct a; simpl; rewrite ?elem_of_nil, ?list_elem_of_singleton;
      intuition (simplify_eq; eauto).
Qed.

(** *** The spanning-tree parameters of a port *)

Lemma unique_key_value {A B} (l : list (A * B)) k v1 v2 :
  NoDup (l.*1) → (k, v1) ∈ l → (k, v2) ∈ l → v1 = v2.
Proof.
  induction l as [|[k' v'] l IH]; simpl; [by intros _ ?%elem_of_nil|].
  intros [Hk Hl]%NoDup_cons [H1|H1]%elem_of_cons [H2|H2]%elem_of_cons.
  - congruence.
  - simplify_eq. destruct Hk. apply list_elem_of_fmap. by exists (k', v2).
  - simplify_eq. destruct Hk. apply list_elem_of_fmap. by exists (k', v1).
  - by apply IH.
Qed.

Lemma port_actions_body br config port a :
  port ∈ joining_ports config →
  a ∈ port_actions (BridgeIf.new br) port →
  a ∈ pass_body (BridgeIf.new br) config.
Proof.
  intros Hp Ha. unfold pass_body, addition_actions.
  rewrite !elem_of_app. right; right.
  apply list_elem_of_In, in_flat_map. exists port.
  split; by apply list_elem_of_In.
Qed.

Lemma port_parameter_pass br config w port pc name ending get :
  (port, pc) ∈ joining_ports config →
  NoDup (joining_ports config).*1 →
  dict_get (cls_sysfs_set (STP.enable BridgeIf.class)) name
  = Some (mkParameterSpec assert_positive None
            (λ ifname, "/sys/class/net/" +:+ ifname +:+ ending)) →
  dict_get (cls_command_set (STP.enable BridgeIf.class)) name = None →
  interface_action (mkIface (STP.enable BridgeIf.class) port) name (get pc)
    ∈ port_actions (BridgeIf.new br) (port, pc) →
  (∀ v, pass_write br config (net_location port ending) v
        ↔ ∃ pc' z, (port, pc') ∈ joining_ports config
                   ∧ get pc' = Some (VInt z) ∧ 0 < z ∧ v = VInt z) →
  let r := BridgeIf.update (BridgeIf.new br) config w in
  succeeds r →
  port_parameter_applied r w (net_location port ending) (get pc).
Proof.
  intros Hp Hnd Hs Hc Hin Hw r Hok. unfold port_parameter_applied.
  destruct (get pc) as [v|] eqn:Hg.
  - apply (port_actions_body _ config) in Hin; [|done].
    pose proof Hok as Hf%update_succeeds.
    pose proof (failure_None_step _ _ Hf Hin) as Hstep.
    rewrite (interface_action_sysfs
               (mkIface (STP.enable BridgeIf.class) port) _ _ _ Hc Hs) in Hstep.
    unfold sysfs_action in Hstep. simpl in Hstep.
    destruct (assert_positive v) eqn:Hv; [|done].
    apply assert_positive_true in Hv as (z & -> & Hz).
    assert (pass_write br config (net_location port ending) (VInt z)) as Hpw.
    { apply Hw. by exists pc, z. }
    split; [by apply update_written_event|].
    apply update_lookup_written; [done..|].
    intros v' (pc' & z' & Hp' & Hg' & _ & ->)%Hw.
    rewrite (unique_key_value _ _ _ _ Hnd Hp' Hp) in Hg'. congruence.
  - assert (∀ v, ¬ pass_write br config (net_location port ending) v) as Hno.
    { intros v (pc' & z' & Hp' & Hg' & _)%Hw.
      rewrite (unique_key_value _ _ _ _ Hnd Hp' Hp) in Hg'. congruence. }
    split; [|by apply update_lookup_unwritten].
    intros v Hev%update_write_event. by destruct (Hno v).
Qed.

(** C8, as the code has it.  The setters of the path cost and of the path
    priority of a port come with [STP.enable(BridgeIf)], which [update]
    calls on every pass, whatever the spanning-tree state of the bridge:
    for every port that joins, in every pass that returns, the cost and the
    priority of the port are written when the configuration of the port
    has them, and are left alone when it has not; a setter given no value
    does nothing. *)
Theorem C8_port_parameters_whatever_stp
    (br : string) (config : DesiredConfig) (w : World)
    (port : string) (pc : PortConfig) :
  (port, pc) ∈ joining_ports config →
  NoDup (joining_ports config).*1 →
  let r := BridgeIf.update (BridgeIf.new br) config w in
  let STPBridgeIf := mkIface (STP.enable BridgeIf.class) port in
  succeeds r →
  port_parameter_applied r w
    ("/sys/class/net/" +:+ port +:+ "/brport/path_cost") (port_cost pc)
  ∧ port_parameter_applied r w
      ("/sys/class/net/" +:+ port +:+ "/brport/priority") (port_priority pc)
  ∧ STP.set_path_cost STPBridgeIf None w = mkRun (Ok tt) w []
  ∧ STP.set_path_priority STPBridgeIf None w = mkRun (Ok tt) w [].
Proof.
  intros Hp Hnd r STPBridgeIf Hok. split_and!; [| |done|done].
  - apply (port_parameter_pass br config w port pc "path_cost"
             "/brport/path_cost" port_cost); try done.
    + unfold port_actions. set_solver.
    + intros v. apply pass_write_path_cost.
  - apply (port_parameter_pass br config w port pc "path_priority"
             "/brport/priority" port_priority); try done.
    + unfold port_actions. set_solver.
    + intros v. apply pass_write_path_priority.
Qed.

Lemma C8_port_witness :
  let r := BridgeIf.update (BridgeIf.new "br0") ordering_scenario fresh_world in
  ("eth0", {| port_cost := Some (VInt 100); port_priority := None |})
    ∈ joining_ports ordering_scenario
  ∧ SysfsWrite "/sys/class/net/eth0/brport/path_cost" (VInt 100) ∈ events r
  ∧ ∀ v, SysfsWrite "/sys/class/net/eth0/brport/priority" v ∉ events r.
Proof.
  intros r.
  assert (("eth0", {| port_cost := Some (VInt 100); port_priority := None |})
            ∈ joining_ports ordering_scenario) as Hp
    by (apply elem_of_cons; by left).
  assert (NoDup (joining_ports ordering_scenario).*1) as Hnd.
  { apply NoDup_cons. split; [apply not_elem_of_nil | apply NoDup_nil_2]. }
  assert (succeeds r) as Hok by (exists tt; vm_compute; reflexivity).
  destruct (C8_port_parameters_whatever_stp "br0" ordering_scenario fresh_world
              "eth0" _ Hp Hnd Hok) as ([Hc _] & [Hn _] & _).
  exact (conj Hp (conj Hc Hn)).
Defined.

(** C8 as it is stated does not hold: on the scenario of C1 the
    configuration has no [stp] key, the pass writes 0 to the spanning-tree
    state of the bridge, and it writes the path cost of eth0 all the
    same. *)
Lemma C8_counterexample :
  let r := BridgeIf.update (BridgeIf.new "br0") ordering_scenario fresh_world in
  stp ordering_scenario = false
  ∧ result r = Ok tt
  ∧ events r =
      [ SysfsWrite "/sys/class/net/br0/bridge/forward_delay" (VInt 1500);
        SysfsWrite "/sys/class/net/br0/bridge/stp_state" (VStr "0");
        SysfsWrite "/sys/class/net/br0/bridge/multicast_querier" (VStr "0");
        FlushAddrs "eth0";
        Command (IpLinkSetMaster "eth0" "br0");
        SysfsWrite "/sys/class/net/eth0/brport/path_cost" (VInt 100);
        AdminState "br0" up true ]
  ∧ sysfs (world r) !! "/sys/class/net/br0/bridge/stp_state" = Some (VStr "0")
  ∧ sysfs (world r) !! "/sys/class/net/eth0/brport/path_cost"
    = Some (VInt 100).
Proof. repeat split; vm_compute; reflexivity. Qed.

(** ** The same pass twice *)

Lemma admin_step_ext s w w' :
  admin_state_down_cnt w = admin_state_down_cnt w' →
  link_up w = link_up w' →
  admin_state_down_cnt (admin_step s w).1
  = admin_state_down_cnt (admin_step s w').1
  ∧ link_up (admin_step s w).1 = link_up (admin_step s w').1.
Proof.
  intros Hc Hl. unfold admin_step. rewrite Hc, Hl.
  destruct s; case_decide; done.
Qed.

Lemma admin_step_twice s w :
  s = down ∨ admin_state_down_cnt w ≠ 2%nat →
  link_up (admin_step s (admin_step s w).1).1 = link_up (admin_step s w).1.
Proof.
  destruct w as [? ? ? c l]. unfold admin_step. simpl.
  intros Hadm. destruct s; repeat (case_decide; simpl in * ); try done; try lia.
  destruct Hadm as [?|?]; [done|lia].
Qed.

Lemma update_admin_fields self config w :
  let r := BridgeIf.update self config w in
  let w' := if failure (pass_body self config) is Some _ then w
            else (admin_step (requested_state config) w).1 in
  admin_state_down_cnt (world r) = admin_state_down_cnt w'
  ∧ link_up (world r) = link_up w'.
Proof.
  intros r w'. pose proof (update_admin self config w) as H.
  unfold r, w'. destruct (failure (pass_body self config)).
  - split; [exact (f_equal fst H) | exact (f_equal snd H)].
  - split; [exact (f_equal fst H) | exact (f_equal snd H)].
Qed.

(** C9, as the code has it.  A second pass with the same configuration,
    on the state the first one left, changes neither the files nor the
    ports of the bridge nor the addresses, and ends as the first one did:
    no write and no attachment adds up.  The link state is the same as
    well, unless the configuration has no [disable] key and exactly two
    requests for 'down' were open before the first pass: each pass takes
    one away, so the second one brings the link up. *)
Theorem C9_second_pass_changes_nothing
    (br : string) (config : DesiredConfig) (w : World) :
  let r1 := BridgeIf.update (BridgeIf.new br) config w in
  let r2 := BridgeIf.update (BridgeIf.new br) config (world r1) in
  sysfs (world r2) = sysfs (world r1)
  ∧ master (world r2) = master (world r1)
  ∧ addrs (world r2) = addrs (world r1)
  ∧ result r2 = result r1
  ∧ (disable config = true ∨ admin_state_down_cnt w ≠ 2%nat →
     link_up (world r2) = link_up (world r1)).
Proof.
  intros r1 r2. split_and!.
  - unfold r2. rewrite update_sysfs. unfold r1. rewrite update_sysfs.
    apply assign_all_twice.
  - unfold r2. rewrite update_master. unfold r1. rewrite update_master.
    apply assign_all_twice.
  - unfold r2. rewrite update_addrs. unfold r1. rewrite update_addrs.
    apply assign_all_twice.
  - unfold r2, r1. by rewrite !update_result.
  - intros Hadm.
    destruct (update_admin_fields (BridgeIf.new br) config (world r1))
      as [_ H2].
    destruct (update_admin_fields (BridgeIf.new br) config w) as [Hc1 Hl1].
    fold r1 in Hc1, Hl1. fold r2 in H2. rewrite H2. clear H2.
    destruct (failure (pass_body (BridgeIf.new br) config)); [done|].
    destruct (admin_step_ext (requested_state config) (world r1)
                (admin_step (requested_state config) w).1 Hc1 Hl1)
      as [_ ->].
    rewrite Hl1. apply admin_step_twice.
    unfold requested_state. destruct Hadm as [->|?]; [by left|by right].
Qed.

Lemma C9_second_pass_witness :
  let r1 := BridgeIf.update (BridgeIf.new "br0") ordering_scenario fresh_world in
  let r2 := BridgeIf.update (BridgeIf.new "br0") ordering_scenario (world r1) in
  (disable ordering_scenario = true
   ∨ admin_state_down_cnt fresh_world ≠ 2%nat)
  ∧ link_up (world r2) = link_up (world r1)
  ∧ master (world r2) = master (world r1).
Proof.
  intros r1 r2.
  assert (disable ordering_scenario = true
          ∨ admin_state_down_cnt fresh_world ≠ 2%nat) as H
    by (right; discriminate).
  destruct (C9_second_pass_changes_nothing "br0" ordering_scenario fresh_world)
    as (_ & Hm & _ & _ & Hl).
  exact (conj H (conj (Hl H) Hm)).
Defined.

(** C9 as it is stated does not hold for the link state.  On a bridge that
    two requests for 'down' hold down, one pass of the empty configuration
    leaves the link down, and a second pass brings it up. *)
Lemma C9_counterexample :
  let r1 := BridgeIf.update (BridgeIf.new "br0") empty_config held_down_twice in
  let r2 := BridgeIf.update (BridgeIf.new "br0") empty_config (world r1) in
  admin_state_down_cnt held_down_twice = 2%nat
  ∧ link_up held_down_twice = false
  ∧ result r1 = Ok tt ∧ link_up (world r1) = false
  ∧ result r2 = Ok tt ∧ link_up (world r2) = true.
Proof. repeat split; vm_compute; reflexivity. Qed.

(** ** What a pass depends on *)

Lemma request_of_body l :
  map request_of (flat_map body_events l) = flat_map body_events l.
Proof.
  induction l as [|a l IH]; simpl; [done|].
  rewrite map_app, IH. f_equal. by destruct a.
Qed.

Lemma filter_body_events l :
  filter (λ ev, is_admin_event ev = false) (flat_map body_events l)
  = flat_map body_events l.
Proof.
  induction l as [|a l IH]; simpl; [done|].
  rewrite filter_app, IH. f_equal. by destruct a.
Qed.

(** C10, as the code has it.  Which setters a pass calls, with which
    values and in which order, is read off the configuration alone: two
    passes with the same configuration, in whatever states, end alike, make
    the same writes, commands to ports and flushes in the same order, and
    ask for the same link state.  Whether that last request is applied
    depends on the count of open requests for 'down': with equal counts
    the two logs are equal. *)
Theorem C10_pass_determined_by_config
    (br : string) (config : DesiredConfig) (w1 w2 : World) :
  let r1 := BridgeIf.update (BridgeIf.new br) config w1 in
  let r2 := BridgeIf.update (BridgeIf.new br) config w2 in
  result r1 = result r2
  ∧ filter (λ ev, is_admin_event ev = false) (events r1)
    = filter (λ ev, is_admin_event ev = false) (events r2)
  ∧ map request_of (events r1) = map request_of (events r2)
  ∧ (admin_state_down_cnt w1 = admin_state_down_cnt w2 →
     events r1 = events r2).
Proof.
  intros r1 r2. unfold r1, r2. rewrite !update_result, !update_events.
  split_and!.
  - done.
  - rewrite !filter_app, !filter_body_events.
    by destruct (failure _).
  - rewrite !map_app. by destruct (failure _).
  - intros Hc. destruct (failure _); [done|]. do 3 f_equal.
    unfold admin_step. rewrite Hc.
    destruct (requested_state config); by repeat case_decide.
Qed.

Lemma C10_pass_witness :
  let r1 := BridgeIf.update (BridgeIf.new "br0") ordering_scenario fresh_world in
  let r2 :=
    BridgeIf.update (BridgeIf.new "br0") ordering_scenario
      (mkWorld {["/sys/class/net/br0/bridge/stp_state" := VStr "1"]}
         {["eth1" := "br0"]} ∅ 0 true) in
  events r1 = events r2.
Proof.
  intros r1 r2.
  exact (proj2 (proj2 (proj2
    (C10_pass_determined_by_config "br0" ordering_scenario fresh_world
       (mkWorld {["/sys/class/net/br0/bridge/stp_state" := VStr "1"]}
          {["eth1" := "br0"]} ∅ 0 true)))) eq_refl).
Defined.

(** C10 as it is stated does not hold: the empty configuration makes
    different logs on a bridge held down once and on a bridge held down
    twice.  On the first the request for 'up' is applied, on the second it
    is not. *)
Lemma C10_counterexample :
  let r1 := BridgeIf.update (BridgeIf.new "br0") empty_config held_down_once in
  let r2 := BridgeIf.update (BridgeIf.new "br0") empty_config held_down_twice in
  events r1 =
    [ SysfsWrite "/sys/class/net/br0/bridge/stp_state" (VStr "0");
      SysfsWrite "/sys/class/net/br0/bridge/multicast_querier" (VStr "0");
      AdminState "br0" up true ]
  ∧ events r2 =
    [ SysfsWrite "/sys/class/net/br0/bridge/stp_state" (VStr "0");
      SysfsWrite "/sys/class/net/br0/bridge/multicast_querier" (VStr "0");
      AdminState "br0" up false ]
  ∧ events r1 ≠ events r2.
Proof.
  split_and!; [vm_compute; reflexivity..|].
  vm_compute. discriminate.
Qed.

(** * Further properties of the bridge *)

(** ** Dictionaries *)

Lemma dict_get_merge {A} (d1 d2 : list (string * A)) k :
  dict_get (dict_merge d1 d2) k
  = match dict_get d2 k with
    | Some a => Some a
    | None => dict_get d1 k
    end.
Proof.
  unfold dict_merge. induction d2 as [|[k' a] d2 IH]; simpl; [done|].
  by case_decide.
Qed.

(** X1.  Whatever the base class has in its [definition], the bridge's
    [definition] says section 'bridge', prefixes ['br'] and broadcast True,
    and every other key is the one of the base class. *)
Theorem bridge_definition_overrides_base
    (Interface_definition : list (string * attribute)) :
  dict_get (bridge_definition Interface_definition) "section"
  = Some (AttrStr "bridge")
  ∧ dict_get (bridge_definition Interface_definition) "prefixes"
    = Some (AttrList ["br"])
  ∧ dict_get (bridge_definition Interface_definition) "broadcast"
    = Some (AttrBool true)
  ∧ ∀ k, k ∉ ["section"; "prefixes"; "broadcast"] →
         dict_get (bridge_definition Interface_definition) k
         = dict_get Interface_definition k.
Proof.
  unfold bridge_definition. rewrite !dict_get_merge. split_and!; try done.
  intros k Hk. rewrite dict_get_merge. simpl.
  repeat case_decide; try done; subst; destruct Hk; set_solver.
Qed.

Lemma bridge_definition_witness :
  ("type" ∉ ["section"; "prefixes"; "broadcast"])
  ∧ dict_get (bridge_definition bridge_default) "type"
    = Some (AttrStr "bridge").
Proof.
  assert ("type" ∉ ["section"; "prefixes"; "broadcast"]) as H.
  { intros H. repeat (apply elem_of_cons in H as [H|H]; [discriminate H|]).
    by apply elem_of_nil in H. }
  split; [exact H|].
  exact (eq_trans
    (proj2 (proj2 (proj2 (bridge_definition_overrides_base bridge_default)))
       "type" H) eq_refl).
Defined.

(** The entries of [BridgeIf._sysfs_set], by name. *)
Lemma bridge_sysfs_set_inv name p :
  dict_get BridgeIf._sysfs_set name = Some p →
  name ∈ bridge_parameter_names
  ∧ ∃ ending,
      location p = (λ ifname, "/sys/class/net/" +:+ ifname +:+ ending)
      ∧ (name, ending) ∈
          [ ("ageing_time", "/bridge/ageing_time");
            ("forward_delay", "/bridge/forward_delay");
            ("hello_time", "/bridge/hello_time");
            ("max_age", "/bridge/max_age");
            ("priority", "/bridge/priority");
            ("stp", "/bridge/stp_state");
            ("multicast_querier", "/bridge/multicast_querier") ].
Proof.
  unfold BridgeIf._sysfs_set, dict_merge, bridge_parameter_names. simpl.
  repeat case_decide; try done; intros [= <-]; subst;
    (split; [set_solver|]); eexists; (split; [reflexivity|]); set_solver.
Qed.

(** X2.  No two parameters of the bridge share a file: two entries of
    [_sysfs_set] resolve to the same location only when they are the same
    parameter of the same interface, whatever the interface names are. *)
Theorem bridge_locations_distinct
    (n1 n2 : string) (p1 p2 : ParameterSpec) (if1 if2 : string) :
  dict_get BridgeIf._sysfs_set n1 = Some p1 →
  dict_get BridgeIf._sysfs_set n2 = Some p2 →
  location p1 if1 = location p2 if2 →
  n1 = n2 ∧ if1 = if2.
Proof.
  intros (_ & e1 & -> & H1)%bridge_sysfs_set_inv
         (_ & e2 & -> & H2)%bridge_sysfs_set_inv Heq.
  change (net_location if1 e1 = net_location if2 e2) in Heq.
  repeat (apply elem_of_cons in H1 as [H1|H1]);
    [simplify_eq H1; intros; subst.. | by apply elem_of_nil in H1];
    (repeat (apply elem_of_cons in H2 as [H2|H2]);
     [simplify_eq H2; intros; subst.. | by apply elem_of_nil in H2]);
    try clash; by apply net_location_same in Heq.
Qed.

Lemma bridge_locations_witness :
  location (mkParameterSpec assert_positive (Some BridgeIf.centiseconds)
              (λ ifname, "/sys/class/net/" +:+ ifname +:+ "/bridge/max_age"))
    "br0"
  = "/sys/class/net/br0/bridge/max_age"
  ∧ "max_age" = "max_age" ∧ "br0" = "br0".
Proof.
  split; [reflexivity|].
  exact (bridge_locations_distinct "max_age" "max_age" _ _ "br0" "br0"
           eq_refl eq_refl eq_refl).
Defined.

(** ** Parameters written as they are given *)

(** X3.  [priority], [stp] and [multicast_querier] have no ['convert']
    entry: a value that their validator accepts goes to the file as it was
    given, in one write, and nothing else changes. *)
Theorem unconverted_parameters_stored_as_given
    (name : string) (p : ParameterSpec) (br : string) (v : value) (w : World) :
  name ∈ ["priority"; "stp"; "multicast_querier"] →
  dict_get BridgeIf._sysfs_set name = Some p →
  validate p v = true →
  Interface.set_interface (BridgeIf.new br) name (Some v) w
  = mkRun (Ok tt) (with_sysfs (<[location p br := v]>) w)
      [SysfsWrite (location p br) v].
Proof.
  intros Hn Hp Hv. rewrite set_interface_perform.
  repeat (apply elem_of_cons in Hn as [->|Hn]);
    [..|by apply elem_of_nil in Hn];
    match goal with
    | |- context [interface_action _ ?n _] =>
        rewrite (interface_action_sysfs (BridgeIf.new br) n p _ eq_refl Hp)
    end;
    injection Hp as <-; unfold sysfs_action; simpl in *; by rewrite Hv.
Qed.

Lemma unconverted_parameters_witness :
  BridgeIf.set_stp (BridgeIf.new "br0") (Some (VStr "1")) fresh_world
  = mkRun (Ok tt)
      (with_sysfs (<["/sys/class/net/br0/bridge/stp_state" := VStr "1"]>)
         fresh_world)
      [SysfsWrite "/sys/class/net/br0/bridge/stp_state" (VStr "1")].
Proof.
  refine (unconverted_parameters_stored_as_given "stp" _ "br0" (VStr "1")
            fresh_world _ eq_refl eq_refl).
  apply elem_of_cons. right. apply elem_of_cons. by left.
Defined.

(** ** Attaching and detaching a port *)

Lemma add_port_run br port w :
  BridgeIf.add_port (BridgeIf.new br) port w
  = mkRun (Ok tt) (with_master (<[port := br]>) w)
      [Command (IpLinkSetMaster port br)].
Proof. reflexivity. Qed.

Lemma del_port_run br port w :
  BridgeIf.del_port (BridgeIf.new br) port w
  = mkRun (Ok tt) (with_master (delete port) w)
      [Command (IpLinkSetNomaster port)].
Proof. reflexivity. Qed.

(** X4.  [add_port] and [del_port] each run one command, built from
    ['ip link set dev {value} master {ifname}'] and ['ip link set dev
    {value} nomaster'], and touch nothing but the master of that one port.
    Neither looks at the membership first: attaching a port twice runs the
    command twice and leaves the state of attaching it once; detaching
    after attaching leaves the port without master, attaching after
    detaching leaves it on the bridge. *)
Theorem add_port_del_port_compose (br port : string) (w : World) :
  let add := BridgeIf.add_port (BridgeIf.new br) port in
  let del := BridgeIf.del_port (BridgeIf.new br) port in
  (result (add w) = Ok tt
   ∧ shell_text <$> omap (λ ev, if ev is Command c then Some c else None)
                       (events (add w))
     = ["ip link set dev " +:+ port +:+ " master " +:+ br])
  ∧ (result (del w) = Ok tt
     ∧ shell_text <$> omap (λ ev, if ev is Command c then Some c else None)
                         (events (del w))
       = ["ip link set dev " +:+ port +:+ " nomaster"])
  ∧ attached (world (add w)) br port
  ∧ master (world (del w)) !! port = None
  ∧ world (add (world (add w))) = world (add w)
  ∧ events (bind add (λ _, add) w)
    = [Command (IpLinkSetMaster port br); Command (IpLinkSetMaster port br)]
  ∧ master (world (bind add (λ _, del) w)) !! port = None
  ∧ attached (world (bind del (λ _, add) w)) br port
  ∧ (∀ q, q ≠ port →
       master (world (add w)) !! q = master w !! q
       ∧ master (world (del w)) !! q = master w !! q)
  ∧ (sysfs (world (add w)) = sysfs w ∧ addrs (world (add w)) = addrs w
     ∧ sysfs (world (del w)) = sysfs w ∧ addrs (world (del w)) = addrs w).
Proof.
  intros add del. unfold add, del, bind, attached.
  rewrite ?add_port_run, ?del_port_run. simpl.
  rewrite ?add_port_run, ?del_port_run. simpl.
  split_and!; try done.
  - apply lookup_insert_eq.
  - apply lookup_delete_eq.
  - unfold with_master. simpl. by rewrite insert_insert_eq.
  - apply lookup_delete_eq.
  - apply lookup_insert_eq.
  - intros q Hq. split.
    + by apply lookup_insert_ne.
    + by apply lookup_delete_ne.
Qed.

Lemma add_port_del_port_witness :
  ("eth1" ≠ "eth0")
  ∧ master (world (BridgeIf.add_port (BridgeIf.new "br0") "eth0"
                     (mkWorld ∅ {["eth1" := "br1"]} ∅ 0 true)))
      !! "eth1" = Some "br1".
Proof.
  assert ("eth1" ≠ "eth0") as Hne by discriminate.
  split; [exact Hne|].
  destruct (add_port_del_port_compose "br0" "eth0"
              (mkWorld ∅ {["eth1" := "br1"]} ∅ 0 true))
    as (_ & _ & _ & _ & _ & _ & _ & _ & Hq & _).
  exact (eq_trans (proj1 (Hq "eth1" Hne)) eq_refl).
Defined.

(** ** The first value that is refused *)

Lemma scalar_action_refused br config name get v :
  (name, get) ∈ scalar_parameters →
  get config = Some v → assert_positive v = false →
  interface_action (BridgeIf.new br) name (get config)
  = AFail (InvalidParameter name v).
Proof.
  intros Hin Hg Hv. unfold scalar_parameters in Hin. rewrite Hg.
  repeat (apply elem_of_cons in Hin as [Hin|Hin]);
    [injection Hin as -> ->.. | by apply elem_of_nil in Hin];
    erewrite interface_action_sysfs by reflexivity;
    unfold sysfs_action; simpl; by rewrite Hv.
Qed.

Lemma scalar_action_accepted br config name get :
  (name, get) ∈ scalar_parameters →
  (∀ v, get config = Some v → assert_positive v = true) →
  step_error (interface_action (BridgeIf.new br) name (get config)) = None.
Proof.
  intros Hin Hacc. unfold scalar_parameters in Hin.
  destruct (get config) as [v|] eqn:Hg.
  - pose proof (Hacc v eq_refl) as (z & -> & Hz%Z.ltb_lt)%assert_positive_true.
    repeat (apply elem_of_cons in Hin as [Hin|Hin]);
      [injection Hin as -> ->.. | by apply elem_of_nil in Hin];
      erewrite interface_action_sysfs by reflexivity;
      unfold sysfs_action; simpl; by rewrite Hz.
  - repeat (apply elem_of_cons in Hin as [Hin|Hin]);
      [injection Hin as -> ->.. | by apply elem_of_nil in Hin];
      by erewrite interface_action_sysfs by reflexivity.
Qed.

Lemma set_scalars_run_all br config l w :
  set_scalars (BridgeIf.new br) config l w
  = run_all (map (λ x, interface_action (BridgeIf.new br) x.1 (x.2 config)) l) w.
Proof.
  unfold set_scalars. rewrite <-flat_map_unit.
  apply for_each_run_all. intros [n g] w'.
  by rewrite set_interface_perform, run_all_single.
Qed.

Lemma accepted_scalars_failure br config l :
  (∀ x, x ∈ l → x ∈ scalar_parameters) →
  (∀ n g, (n, g) ∈ l → ∀ v, g config = Some v → assert_positive v = true) →
  failure (map (λ x, interface_action (BridgeIf.new br) x.1 (x.2 config)) l)
  = None.
Proof.
  induction l as [|[n g] l IH]; intros Hsub Hacc; simpl; [done|].
  rewrite (scalar_action_accepted br config n g).
  - apply IH.
    + intros x Hx. apply Hsub. by right.
    + intros n' g' Hin. apply (Hacc n' g'). by right.
  - apply Hsub. by left.
  - apply (Hacc n g). by left.
Qed.

(** X6.  The scalar parameters are set in the order [ageing_time],
    [forward_delay], [hello_time], [max_age], [priority].  When the first
    value that is not a positive integer is the one of parameter [name], the
    pass is the setters before it, which all return, and then
    [InvalidParameter] for [name]: what those setters wrote stays written,
    and nothing that comes after is done. *)
Theorem first_refused_scalar_ends_pass
    (br : string) (config : DesiredConfig) (w : World)
    (before after : list (string * (DesiredConfig → option value)))
    (name : string) (get : DesiredConfig → option value) (v : value) :
  scalar_parameters = before ++ (name, get) :: after →
  (∀ n g, (n, g) ∈ before →
          ∀ v', g config = Some v' → assert_positive v' = true) →
  get config = Some v →
  assert_positive v = false →
  let r0 := set_scalars (BridgeIf.new br) config before w in
  succeeds r0
  ∧ BridgeIf.update (BridgeIf.new br) config w
    = mkRun (Raise (InvalidParameter name v)) (world r0) (events r0).
Proof.
  intros Hsp Hacc Hg Hv r0. unfold r0.
  rewrite set_scalars_run_all, update_run_all.
  set (f := λ x : string * (DesiredConfig → option value),
              interface_action (BridgeIf.new br) x.1 (x.2 config)).
  assert (pass_actions (BridgeIf.new br) config
          = map f before
            ++ AFail (InvalidParameter name v)
               :: (map f after
                   ++ [ interface_action (BridgeIf.new br) "stp"
                          (Some (stp_value config));
                        interface_action (BridgeIf.new br) "multicast_querier"
                          (Some (querier_value config)) ]
                   ++ removal_actions (BridgeIf.new br) config
                   ++ addition_actions (BridgeIf.new br) config
                   ++ [AAdmin br (requested_state config)])) as ->.
  { unfold pass_actions, pass_body.
    change (parameter_actions (BridgeIf.new br) config)
      with (map f scalar_parameters
            ++ [ interface_action (BridgeIf.new br) "stp"
                   (Some (stp_value config));
                 interface_action (BridgeIf.new br) "multicast_querier"
                   (Some (querier_value config)) ]).
    rewrite Hsp, map_app, <-!app_assoc. simpl. do 2 f_equal.
    unfold f at 1. simpl. apply scalar_action_refused; [|done..].
    rewrite Hsp. apply elem_of_app. right. by left. }
  assert (failure (map f before) = None) as Hf.
  { apply accepted_scalars_failure; [|done].
    intros x Hx. rewrite Hsp. apply elem_of_app. by left. }
  split; [unfold succeeds; rewrite result_run_all, Hf; by exists tt|].
  rewrite run_all_app, result_run_all, Hf. simpl. by rewrite app_nil_r.
Qed.

Lemma first_refused_scalar_witness :
  let config :=
    {| aging := Some (VInt 300); forwarding_delay := Some (VInt 0);
       hello_time := Some (VInt 2); max_age := None; priority := None;
       stp := true; igmp := None; member := None; disable := false |} in
  let r := BridgeIf.update (BridgeIf.new "br0") config fresh_world in
  assert_positive (VInt 0) = false
  ∧ result r = Raise (InvalidParameter "forward_delay" (VInt 0))
  ∧ events r
    = [SysfsWrite "/sys/class/net/br0/bridge/ageing_time" (VInt 30000)].
Proof.
  intros config r.
  assert (∀ n g, (n, g) ∈ [("ageing_time", aging)] →
                 ∀ v', g config = Some v' → assert_positive v' = true) as Hacc.
  { intros n g Hin v' Hg.
    apply elem_of_cons in Hin as [Hin|Hin]; [|by apply elem_of_nil in Hin].
    injection Hin as -> ->. injection Hg as <-. reflexivity. }
  destruct (first_refused_scalar_ends_pass "br0" config fresh_world
              [("ageing_time", aging)]
              [("hello_time", hello_time); ("max_age", max_age);
               ("priority", priority)]
              "forward_delay" forwarding_delay (VInt 0)
              eq_refl Hacc eq_refl eq_refl) as [_ Hr].
  split; [reflexivity|]. unfold r. rewrite Hr. split; reflexivity.
Defined.

(** ** The ports after a pass *)

Lemma sysfs_action_addrs self name p val :
  addrs_assigns (sysfs_action self name p val) = [].
Proof. unfold sysfs_action. repeat case_match; done. Qed.

Lemma parameter_actions_master br config :
  flat_map master_assigns (parameter_actions (BridgeIf.new br) config) = [].
Proof.
  unfold parameter_actions. rewrite stp_action, querier_action.
  repeat (erewrite interface_action_sysfs by reflexivity).
  simpl. by rewrite !sysfs_action_master.
Qed.

Lemma parameter_actions_addrs br config :
  flat_map addrs_assigns (parameter_actions (BridgeIf.new br) config) = [].
Proof.
  unfold parameter_actions. rewrite stp_action, querier_action.
  repeat (erewrite interface_action_sysfs by reflexivity).
  simpl. by rewrite !sysfs_action_addrs.
Qed.

Lemma removal_actions_master br config :
  flat_map master_assigns (removal_actions (BridgeIf.new br) config)
  = map (λ p, (p, None)) (removed_ports config).
Proof.
  rewrite removal_actions_eq.
  induction (removed_ports config) as [|p l IH]; simpl; [done|]. by rewrite IH.
Qed.

Lemma removal_actions_addrs br config :
  flat_map addrs_assigns (removal_actions (BridgeIf.new br) config) = [].
Proof.
  rewrite removal_actions_eq.
  induction (removed_ports config) as [|p l IH]; simpl; done.
Qed.

Lemma port_actions_addrs br port :
  flat_map addrs_assigns (port_actions (BridgeIf.new br) port)
  = [(port.1, None)].
Proof.
  unfold port_actions. rewrite add_port_action.
  repeat (erewrite interface_action_sysfs by reflexivity).
  simpl. by rewrite !sysfs_action_addrs.
Qed.

Lemma addition_actions_addrs br config :
  flat_map addrs_assigns (addition_actions (BridgeIf.new br) config)
  = map (λ port, (port.1, None)) (joining_ports config).
Proof.
  unfold addition_actions.
  induction (joining_ports config) as [|port l IH]; [done|].
  cbn [flat_map map]. by rewrite flat_map_app, port_actions_addrs, IH.
Qed.

Lemma pass_body_master br config :
  flat_map master_assigns (pass_body (BridgeIf.new br) config)
  = map (λ p, (p, None)) (removed_ports config)
    ++ map (λ port, (port.1, Some br)) (joining_ports config).
Proof.
  unfold pass_body.
  by rewrite !flat_map_app, parameter_actions_master, removal_actions_master,
    addition_actions_master.
Qed.

Lemma pass_body_addrs br config :
  flat_map addrs_assigns (pass_body (BridgeIf.new br) config)
  = map (λ port, (port.1, None)) (joining_ports config).
Proof.
  unfold pass_body.
  by rewrite !flat_map_app, parameter_actions_addrs, removal_actions_addrs,
    addition_actions_addrs.
Qed.

Lemma flat_map_executed {B} (f : Action → list B) l x :
  x ∈ flat_map f (executed l) → x ∈ flat_map f l.
Proof.
  induction l as [|a l IH]; simpl; [done|].
  destruct (step_error a); [by intros ?%elem_of_nil|]. simpl.
  rewrite !elem_of_app. intros [H|H]; [by left|]. right. by apply IH.
Qed.

Lemma last_assign_const {V B} (p : string) (o : option V)
    (l : list (string * B)) :
  last_assign p (map (λ x, (x.1, o)) l)
  = if decide (p ∈ l.*1) then Some o else None.
Proof.
  induction l as [|[k b] l IH]; simpl; [done|]. rewrite IH.
  destruct (decide (p ∈ l.*1)) as [Hin|Hin].
  - rewrite decide_True; [done|]. by right.
  - case_decide as Hk.
    + subst. rewrite decide_True; [done|]. by left.
    + rewrite decide_False; [done|].
      intros [?|?]%elem_of_cons; by simplify_eq.
Qed.

Lemma last_assign_removed {V} (p : string) (l : list string) :
  last_assign p (map (λ q, (q, @None V)) l)
  = if decide (p ∈ l) then Some None else None.
Proof.
  induction l as [|k l IH]; simpl; [done|]. rewrite IH.
  destruct (decide (p ∈ l)) as [Hin|Hin].
  - rewrite decide_True; [done|]. by right.
  - case_decide as Hk.
    + subst. rewrite decide_True; [done|]. by left.
    + rewrite decide_False; [done|].
      intros [?|?]%elem_of_cons; by simplify_eq.
Qed.

(** X7.  After a pass that returns, every port of [member.interface] is on
    the bridge and has no address left, and every port of
    [member.interface_remove] that does not join has no master. *)
Theorem ports_after_returning_pass
    (br : string) (config : DesiredConfig) (w : World) (port : string) :
  let r := BridgeIf.update (BridgeIf.new br) config w in
  succeeds r →
  (port ∈ (joining_ports config).*1 →
     attached (world r) br port ∧ addrs (world r) !! port = None)
  ∧ (port ∈ removed_ports config → port ∉ (joining_ports config).*1 →
       master (world r) !! port = None).
Proof.
  intros r Hok%update_succeeds. unfold attached, r.
  rewrite update_master, update_addrs, !lookup_assign_all,
    (failure_None_executed _ Hok), pass_body_master, pass_body_addrs,
    last_assign_app, !last_assign_const, last_assign_removed.
  split.
  - intros Hj. by rewrite !decide_True.
  - intros Hr Hj. by rewrite decide_False, decide_True.
Qed.

Lemma ports_after_returning_pass_witness :
  let config :=
    {| aging := None; forwarding_delay := None; hello_time := None;
       max_age := None; priority := None; stp := false; igmp := None;
       member :=
         Some {| interface :=
                   Some [("eth0", {| port_cost := None;
                                     port_priority := None |})];
                 interface_remove := Some ["eth1"] |};
       disable := false |} in
  let w := mkWorld ∅ {["eth1" := "br0"]} {["eth0" := ["192.0.2.1/24"]]}
             0 true in
  let r := BridgeIf.update (BridgeIf.new "br0") config w in
  succeeds r
  ∧ addrs (world r) !! "eth0" = None
  ∧ master (world r) !! "eth1" = None.
Proof.
  intros config w r.
  assert (succeeds r) as Hok by (exists tt; vm_compute; reflexivity).
  split; [exact Hok|]. split.
  - refine (proj2 (proj1
      (ports_after_returning_pass "br0" config w "eth0" Hok) _)).
    apply elem_of_cons. by left.
  - refine (proj2
      (ports_after_returning_pass "br0" config w "eth1" Hok) _ _).
    + apply elem_of_cons. by left.
    + intros H. apply elem_of_cons in H as [H|H]; [discriminate H|].
      by apply elem_of_nil in H.
Defined.

(** X8.  A pass, whether it returns or raises, leaves alone every port
    that the configuration does not name: a port that is neither in
    [member.interface_remove] nor in [member.interface] keeps its master,
    and an interface that is not in [member.interface] keeps its
    addresses. *)
Theorem unnamed_ports_untouched
    (br : string) (config : DesiredConfig) (w : World) (port : string) :
  let r := BridgeIf.update (BridgeIf.new br) config w in
  (port ∉ removed_ports config → port ∉ (joining_ports config).*1 →
     master (world r) !! port = master w !! port)
  ∧ (port ∉ (joining_ports config).*1 →
       addrs (world r) !! port = addrs w !! port).
Proof.
  intros r. unfold r. rewrite update_master, update_addrs, !lookup_assign_all.
  split.
  - intros Hr Hj.
    destruct (last_assign port _) as [o|] eqn:Hl; [|done]. exfalso.
    apply last_assign_Some, flat_map_executed in Hl.
    rewrite pass_body_master in Hl.
    apply elem_of_app in Hl as [Hl|Hl];
      apply list_elem_of_fmap in Hl as (x & [= -> _] & Hx).
    + done.
    + apply Hj, list_elem_of_fmap. by exists x.
  - intros Hj.
    destruct (last_assign port _) as [o|] eqn:Hl; [|done]. exfalso.
    apply last_assign_Some, flat_map_executed in Hl.
    rewrite pass_body_addrs in Hl.
    apply list_elem_of_fmap in Hl as (x & [= -> _] & Hx).
    apply Hj, list_elem_of_fmap. by exists x.
Qed.

Lemma unnamed_ports_witness :
  let w := mkWorld ∅ {["eth7" := "br1"]} {["eth7" := ["192.0.2.1/24"]]}
             0 true in
  let r := BridgeIf.update (BridgeIf.new "br0") ordering_scenario w in
  ("eth7" ∉ removed_ports ordering_scenario)
  ∧ ("eth7" ∉ (joining_ports ordering_scenario).*1)
  ∧ master (world r) !! "eth7" = Some "br1"
  ∧ addrs (world r) !! "eth7" = Some ["192.0.2.1/24"].
Proof.
  intros w r.
  assert ("eth7" ∉ removed_ports ordering_scenario) as Hr
    by apply not_elem_of_nil.
  assert ("eth7" ∉ (joining_ports ordering_scenario).*1) as Hj.
  { intros H. apply elem_of_cons in H as [H|H]; [discriminate H|].
    by apply elem_of_nil in H. }
  destruct (unnamed_ports_untouched "br0" ordering_scenario w "eth7")
    as [Hm Ha].
  exact (conj Hr (conj Hj (conj (eq_trans (Hm Hr Hj) eq_refl)
                                (eq_trans (Ha Hj) eq_refl)))).
Defined.

(** ** What the log of a pass can hold *)

Lemma sysfs_action_no_flush self name p val q :
  sysfs_action self name p val ≠ AFlush q.
Proof. unfold sysfs_action. repeat case_match; done. Qed.

Lemma flush_event_action l q :
  FlushAddrs q ∈ flat_map body_events l ↔ AFlush q ∈ l.
Proof.
  induction l as [|a l IH]; simpl.
  - split; by intros ?%elem_of_nil.
  - rewrite elem_of_app, elem_of_cons, IH.
    destruct a; simpl; rewrite ?elem_of_nil, ?list_elem_of_singleton;
      intuition (simplify_eq; eauto).
Qed.

Lemma body_command_inv br config c :
  ACommand c ∈ pass_body (BridgeIf.new br) config →
  (∃ p, p ∈ removed_ports config ∧ c = IpLinkSetNomaster p)
  ∨ (∃ p, p ∈ (joining_ports config).*1 ∧ c = IpLinkSetMaster p br).
Proof.
  unfold pass_body. rewrite !elem_of_app. intros [H|[H|H]].
  - by apply parameter_actions_no_command in H.
  - rewrite removal_actions_eq in H.
    apply list_elem_of_fmap in H as (p & [= ->] & Hp). left. by exists p.
  - unfold addition_actions in H.
    apply list_elem_of_In, in_flat_map in H as (port & Hp & H).
    apply list_elem_of_In in Hp.
    apply list_elem_of_In, port_actions_commands in H as ->.
    right. exists port.1. split; [|done]. apply list_elem_of_fmap.
    by exists port.
Qed.

Lemma body_flush_inv br config q :
  AFlush q ∈ pass_body (BridgeIf.new br) config →
  q ∈ (joining_ports config).*1.
Proof.
  unfold pass_body. rewrite !elem_of_app. intros [H|[H|H]].
  - unfold parameter_actions in H. rewrite stp_action, querier_action in H.
    repeat (erewrite interface_action_sysfs in H by reflexivity).
    repeat (apply elem_of_cons in H as [H|H]);
      try (by apply eq_sym, sysfs_action_no_flush in H); try done.
    by apply elem_of_nil in H.
  - rewrite removal_actions_eq in H.
    by apply list_elem_of_fmap in H as (p & ? & _).
  - unfold addition_actions in H.
    apply list_elem_of_In, in_flat_map in H as (port & Hp & H).
    apply list_elem_of_In in Hp, H. unfold port_actions in H.
    rewrite add_port_action in H.
    repeat (erewrite interface_action_sysfs in H by reflexivity).
    repeat (apply elem_of_cons in H as [H|H]);
      try (by apply eq_sym, sysfs_action_no_flush in H); try done.
    + injection H as ->. apply list_elem_of_fmap. by exists port.
    + by apply elem_of_nil in H.
Qed.

(** X9.  A pass never acts on a port that the configuration does not name,
    and never on behalf of another bridge: every command of its log
    detaches a port of [member.interface_remove] or attaches a port of
    [member.interface] to this bridge, every flush is of a port of
    [member.interface], and a request for the link state is for this bridge,
    'down' with a [disable] key and 'up' without. *)
Theorem log_names_only_configured_ports
    (br : string) (config : DesiredConfig) (w : World) :
  let r := BridgeIf.update (BridgeIf.new br) config w in
  (∀ c, Command c ∈ events r →
        (∃ p, p ∈ removed_ports config ∧ c = IpLinkSetNomaster p)
        ∨ (∃ p, p ∈ (joining_ports config).*1 ∧ c = IpLinkSetMaster p br))
  ∧ (∀ q, FlushAddrs q ∈ events r → q ∈ (joining_ports config).*1)
  ∧ (∀ i s applied, AdminState i s applied ∈ events r →
       i = br ∧ s = if disable config then down else up).
Proof.
  intros r. unfold r. rewrite update_events. split_and!.
  - intros c [H|H]%elem_of_app.
    + by apply command_event_action, executed_subseteq, body_command_inv in H.
    + destruct (failure _); [by apply elem_of_nil in H|].
      by apply list_elem_of_singleton in H.
  - intros q [H|H]%elem_of_app.
    + by apply flush_event_action, executed_subseteq, body_flush_inv in H.
    + destruct (failure _); [by apply elem_of_nil in H|].
      by apply list_elem_of_singleton in H.
  - intros i s applied [H|H]%elem_of_app.
    + pose proof (body_events_not_admin
                    (executed (pass_body (BridgeIf.new br) config))) as Hna.
      rewrite Forall_forall in Hna. by apply Hna in H.
    + destruct (failure _); [by apply elem_of_nil in H|].
      apply list_elem_of_singleton in H. by injection H as -> -> _.
Qed.

Lemma log_names_witness :
  let r := BridgeIf.update (BridgeIf.new "br0") ordering_scenario fresh_world in
  Command (IpLinkSetMaster "eth0" "br0") ∈ events r
  ∧ ((∃ p, p ∈ removed_ports ordering_scenario
           ∧ IpLinkSetMaster "eth0" "br0" = IpLinkSetNomaster p)
     ∨ (∃ p, p ∈ (joining_ports ordering_scenario).*1
             ∧ IpLinkSetMaster "eth0" "br0" = IpLinkSetMaster p "br0")).
Proof.
  intros r.
  assert (Command (IpLinkSetMaster "eth0" "br0") ∈ events r) as Hin.
  { do 4 (apply elem_of_cons; right). apply elem_of_cons. by left. }
  split; [exact Hin|].
  exact (proj1 (log_names_only_configured_ports "br0" ordering_scenario
                  fresh_world) _ Hin).
Defined.

(** ** A port that is refused *)

Lemma removal_actions_failure br config :
  failure (removal_actions (BridgeIf.new br) config) = None.
Proof.
  rewrite removal_actions_eq.
  induction (removed_ports config) as [|p l IH]; simpl; done.
Qed.

Lemma port_parameter_accepted port name ending val :
  dict_get (cls_sysfs_set (STP.enable BridgeIf.class)) name
  = Some (mkParameterSpec assert_positive None
            (λ ifname, "/sys/class/net/" +:+ ifname +:+ ending)) →
  dict_get (cls_command_set (STP.enable BridgeIf.class)) name = None →
  (∀ v, val = Some v → assert_positive v = true) →
  step_error
    (interface_action (mkIface (STP.enable BridgeIf.class) port) name val)
  = None.
Proof.
  intros Hs Hc Hacc.
  rewrite (interface_action_sysfs
             (mkIface (STP.enable BridgeIf.class) port) _ _ _ Hc Hs).
  unfold sysfs_action. destruct val as [v|]; [|done]. simpl.
  by rewrite (Hacc v eq_refl).
Qed.

Lemma port_actions_failure br port :
  port_accepted port → failure (port_actions (BridgeIf.new br) port) = None.
Proof.
  intros [Hc Hp]. unfold port_actions. rewrite add_port_action. simpl.
  rewrite (port_parameter_accepted port.1 "path_cost" "/brport/path_cost");
    [|done..].
  by rewrite (port_parameter_accepted port.1 "path_priority"
                "/brport/priority").
Qed.

Lemma additions_failure br ports :
  Forall port_accepted ports →
  failure (flat_map (port_actions (BridgeIf.new br)) ports) = None.
Proof.
  induction 1 as [|port ports Hp _ IH]; [done|].
  cbn [flat_map]. by rewrite failure_app, port_actions_failure.
Qed.

Lemma run_up_to_failure l1 l2 e :
  failure l1 = None →
  executed (l1 ++ AFail e :: l2) = l1 ∧ failure (l1 ++ AFail e :: l2) = Some e.
Proof.
  intros Hf. rewrite executed_app, failure_app, Hf. simpl.
  by rewrite app_nil_r, (failure_None_executed _ Hf).
Qed.

(** X10.  The cost of a port is checked after the port was flushed and
    attached, and nothing is taken back.  When the scalar parameters and
    the ports before it are accepted and the cost of a port is not a
    positive integer, the pass raises [InvalidParameter] for [path_cost],
    and the port is on the bridge all the same, without its addresses. *)
Theorem refused_port_cost_leaves_port_attached
    (br : string) (config : DesiredConfig) (w : World)
    (before after : list (string * PortConfig))
    (port : string) (pc : PortConfig) (v : value) :
  scalars_accepted config →
  joining_ports config = before ++ (port, pc) :: after →
  Forall port_accepted before →
  port_cost pc = Some v →
  assert_positive v = false →
  let r := BridgeIf.update (BridgeIf.new br) config w in
  result r = Raise (InvalidParameter "path_cost" v)
  ∧ attached (world r) br port
  ∧ addrs (world r) !! port = None
  ∧ FlushAddrs port ∈ events r
  ∧ Command (IpLinkSetMaster port br) ∈ events r.
Proof.
  intros Hacc Hj Hbefore Hc Hv r.
  set (X := parameter_actions (BridgeIf.new br) config
            ++ removal_actions (BridgeIf.new br) config
            ++ flat_map (port_actions (BridgeIf.new br)) before
            ++ [AFlush port; ACommand (IpLinkSetMaster port br)]).
  assert (∃ Y, pass_body (BridgeIf.new br) config
               = X ++ AFail (InvalidParameter "path_cost" v) :: Y)
    as [Y HX].
  { eexists. unfold pass_body, addition_actions, X. rewrite Hj.
    rewrite flat_map_app. cbn [flat_map]. unfold port_actions at 2.
    rewrite add_port_action. simpl. rewrite Hc.
    erewrite (interface_action_sysfs _ "path_cost") by reflexivity.
    unfold sysfs_action. simpl. rewrite Hv.
    rewrite <-!app_assoc. simpl. reflexivity. }
  assert (failure X = None) as HfX.
  { unfold X. rewrite !failure_app, scalars_accepted_failure,
      removal_actions_failure, additions_failure; done. }
  destruct (run_up_to_failure X Y (InvalidParameter "path_cost" v) HfX)
    as [Hex Hf].
  unfold attached, r.
  rewrite update_result, update_master, update_addrs, update_events,
    !lookup_assign_all, HX, Hex, Hf.
  unfold X. rewrite !flat_map_app, !last_assign_app. simpl.
  rewrite !decide_True by done. split_and!; try done.
  - rewrite !elem_of_app. left. do 3 right. apply elem_of_cons. by left.
  - rewrite !elem_of_app. left. do 3 right. apply elem_of_cons. right.
    apply elem_of_cons. by left.
Qed.

Lemma refused_port_cost_witness :
  let config :=
    {| aging := None; forwarding_delay := None; hello_time := None;
       max_age := None; priority := None; stp := true; igmp := None;
       member :=
         Some {| interface :=
                   Some [("eth0", {| port_cost := Some (VInt 0);
                                     port_priority := None |})];
                 interface_remove := None |};
       disable := false |} in
  let r := BridgeIf.update (BridgeIf.new "br0") config fresh_world in
  scalars_accepted config
  ∧ assert_positive (VInt 0) = false
  ∧ result r = Raise (InvalidParameter "path_cost" (VInt 0))
  ∧ attached (world r) "br0" "eth0".
Proof.
  intros config r.
  assert (scalars_accepted config) as Hacc.
  { intros name get Hin v Hg. unfold scalar_parameters in Hin.
    repeat (apply elem_of_cons in Hin as [Hin|Hin]);
      [injection Hin as -> ->; discriminate Hg..
      | by apply elem_of_nil in Hin]. }
  destruct (refused_port_cost_leaves_port_attached "br0" config fresh_world
              [] [] "eth0" _ (VInt 0) Hacc eq_refl (Forall_nil_2 _)
              eq_refl eq_refl) as (Hr & Ha & _).
  exact (conj Hacc (conj eq_refl (conj Hr Ha))).
Defined.

(** ** Flush, then attach *)

Lemma fba_no_attach l :
  (∀ dev m, Command (IpLinkSetMaster dev m) ∉ l) → flushed_before_attach l.
Proof.
  intros Hno i dev m Hi. destruct (Hno dev m).
  by apply list_elem_of_lookup_2 in Hi.
Qed.

Lemma fba_app l1 l2 :
  flushed_before_attach l1 → flushed_before_attach l2 →
  (∀ dev m, head l2 ≠ Some (Command (IpLinkSetMaster dev m))) →
  flushed_before_attach (l1 ++ l2).
Proof.
  intros H1 H2 Hhd i dev m Hi.
  apply lookup_app_Some in Hi as [Hi|[Hlen Hi]].
  - destruct (H1 _ _ _ Hi) as (j & -> & Hj). exists j. split; [done|].
    by apply lookup_app_l_Some.
  - destruct (H2 _ _ _ Hi) as (j & Hij & Hj).
    exists (length l1 + j)%nat. split; [lia|].
    by rewrite lookup_app_r, Nat.add_comm, Nat.add_sub by lia.
Qed.

Lemma fba_prefix l1 l2 :
  flushed_before_attach (l1 ++ l2) → flushed_before_attach l1.
Proof.
  intros H i dev m Hi.
  destruct (H i dev m) as (j & -> & Hj); [by apply lookup_app_l_Some|].
  exists j. split; [done|].
  apply lookup_lt_Some in Hi. by rewrite lookup_app_l in Hj by lia.
Qed.

Lemma executed_is_prefix l : ∃ k, l = executed l ++ k.
Proof.
  induction l as [|a l [k IH]]; simpl; [by exists []|].
  destruct (step_error a); [by eexists|]. exists k. simpl. by rewrite <-IH.
Qed.

Lemma sysfs_action_events self name p val dev m :
  Command (IpLinkSetMaster dev m)
    ∉ body_events (sysfs_action self name p val).
Proof.
  unfold sysfs_action. repeat case_match; simpl; intros Hin;
    first [ by apply elem_of_nil in Hin
          | by apply list_elem_of_singleton in Hin ].
Qed.

Lemma fba_port_actions br port :
  flushed_before_attach
    (flat_map body_events (port_actions (BridgeIf.new br) port)).
Proof.
  unfold port_actions. rewrite add_port_action.
  repeat (erewrite interface_action_sysfs by reflexivity).
  cbn [flat_map body_events app].
  intros [|[|i]] dev m Hi; simpl in Hi.
  - done.
  - injection Hi as -> ->. by exists 0%nat.
  - exfalso. apply list_elem_of_lookup_2 in Hi. rewrite app_nil_r in Hi.
    apply elem_of_app in Hi as [Hi|Hi]; by apply sysfs_action_events in Hi.
Qed.

Lemma fba_additions br ports :
  flushed_before_attach
    (flat_map body_events (flat_map (port_actions (BridgeIf.new br)) ports))
  ∧ ∀ dev m,
      head (flat_map body_events
              (flat_map (port_actions (BridgeIf.new br)) ports))
      ≠ Some (Command (IpLinkSetMaster dev m)).
Proof.
  induction ports as [|port ports [IH1 IH2]].
  - split; [|done]. apply fba_no_attach. intros ??. apply not_elem_of_nil.
  - change (flat_map (port_actions (BridgeIf.new br)) (port :: ports))
      with (port_actions (BridgeIf.new br) port
            ++ flat_map (port_actions (BridgeIf.new br)) ports).
    rewrite flat_map_app. split; [|done].
    apply fba_app; [apply fba_port_actions|done..].
Qed.

(** X11.  In the log of every pass, an attachment of a port is the entry
    right after the flush of the addresses of that same port: a port is
    never attached without its addresses flushed just before. *)
Theorem attach_follows_flush
    (br : string) (config : DesiredConfig) (w : World)
    (i : nat) (dev m : string) :
  let r := BridgeIf.update (BridgeIf.new br) config w in
  events r !! i = Some (Command (IpLinkSetMaster dev m)) →
  ∃ j, i = S j ∧ events r !! j = Some (FlushAddrs dev).
Proof.
  intros r. revert i dev m. fold (flushed_before_attach (events r)).
  unfold r. rewrite update_events. apply fba_app.
  - destruct (executed_is_prefix (pass_body (BridgeIf.new br) config))
      as [k Hk].
    apply (fba_prefix _ (flat_map body_events k)).
    rewrite <-flat_map_app, <-Hk. unfold pass_body.
    rewrite !flat_map_app. apply fba_app; [|apply fba_app|].
    + apply fba_no_attach. intros dev m H%command_event_action.
      by apply parameter_actions_no_command in H.
    + apply fba_no_attach. intros dev m H%command_event_action.
      rewrite removal_actions_eq in H.
      by apply list_elem_of_fmap in H as (? & ? & _).
    + apply fba_additions.
    + apply fba_additions.
    + intros dev m. rewrite removal_actions_eq.
      destruct (removed_ports config); simpl; [apply fba_additions|done].
  - destruct (failure _); [|apply fba_no_attach].
    + intros i dev m Hi. by rewrite lookup_nil in Hi.
    + intros dev m H. by apply list_elem_of_singleton in H.
  - intros dev m. by destruct (failure _).
Qed.

Lemma attach_follows_flush_witness :
  let r := BridgeIf.update (BridgeIf.new "br0") ordering_scenario fresh_world in
  events r !! 4%nat = Some (Command (IpLinkSetMaster "eth0" "br0"))
  ∧ ∃ j, 4%nat = S j ∧ events r !! j = Some (FlushAddrs "eth0").
Proof.
  intros r.
  assert (events r !! 4%nat = Some (Command (IpLinkSetMaster "eth0" "br0")))
    as Hi by reflexivity.
  split; [exact Hi|].
  exact (attach_follows_flush "br0" ordering_scenario fresh_world 4 "eth0"
           "br0" Hi).
Defined.

(** ** The commands of a pass *)

Lemma commands_of_app l1 l2 :
  commands_of (l1 ++ l2) = commands_of l1 ++ commands_of l2.
Proof. apply omap_app. Qed.

Lemma commands_of_body_events l :
  commands_of (flat_map body_events l) = flat_map action_commands l.
Proof.
  induction l as [|a l IH]; simpl; [done|].
  rewrite commands_of_app, IH. f_equal. by destruct a.
Qed.

Lemma sysfs_action_commands self name p val :
  action_commands (sysfs_action self name p val) = [].
Proof. unfold sysfs_action. repeat case_match; done. Qed.

Lemma parameter_actions_commands br config :
  flat_map action_commands (parameter_actions (BridgeIf.new br) config) = [].
Proof.
  unfold parameter_actions. rewrite stp_action, querier_action.
  repeat (erewrite interface_action_sysfs by reflexivity).
  simpl. by rewrite !sysfs_action_commands.
Qed.

Lemma removal_actions_commands br config :
  flat_map action_commands (removal_actions (BridgeIf.new br) config)
  = map IpLinkSetNomaster (removed_ports config).
Proof.
  rewrite removal_actions_eq.
  induction (removed_ports config) as [|p l IH]; simpl; [done|]. by rewrite IH.
Qed.

Lemma addition_actions_commands br config :
  flat_map action_commands (addition_actions (BridgeIf.new br) config)
  = map (λ port, IpLinkSetMaster port.1 br) (joining_ports config).
Proof.
  unfold addition_actions.
  induction (joining_ports config) as [|port l IH]; [done|].
  cbn [flat_map map]. rewrite flat_map_app, IH. f_equal.
  unfold port_actions. rewrite add_port_action.
  repeat (erewrite interface_action_sysfs by reflexivity).
  simpl. by rewrite !sysfs_action_commands.
Qed.

(** X12.  The commands of a pass that returns are one detachment for every
    entry of [member.interface_remove], in the order of the list, and then
    one attachment to this bridge for every entry of [member.interface], in
    the order of the dictionary: none is left out, none is run twice, and
    none is spared because the port is already where it should be. *)
Theorem commands_of_returning_pass
    (br : string) (config : DesiredConfig) (w : World) :
  let r := BridgeIf.update (BridgeIf.new br) config w in
  succeeds r →
  commands_of (events r)
  = map IpLinkSetNomaster (removed_ports config)
    ++ map (λ port, IpLinkSetMaster port.1 br) (joining_ports config).
Proof.
  intros r Hok%update_succeeds. unfold r.
  rewrite update_events, Hok, (failure_None_executed _ Hok).
  rewrite commands_of_app, commands_of_body_events.
  change (commands_of [AdminState _ _ _]) with (@nil ShellCmd).
  rewrite app_nil_r. unfold pass_body.
  by rewrite !flat_map_app, parameter_actions_commands,
    removal_actions_commands, addition_actions_commands.
Qed.

Lemma commands_of_returning_pass_witness :
  let w := mkWorld ∅ {["eth0" := "br0"]} ∅ 0 true in
  let r := BridgeIf.update (BridgeIf.new "br0") ordering_scenario w in
  succeeds r
  ∧ commands_of (events r) = [IpLinkSetMaster "eth0" "br0"].
Proof.
  intros w r.
  assert (succeeds r) as Hok by (exists tt; vm_compute; reflexivity).
  split; [exact Hok|].
  exact (eq_trans
    (commands_of_returning_pass "br0" ordering_scenario w Hok) eq_refl).
Defined.

(** ** Removal, then addition *)

Lemma port_parameter_refused port name ending v :
  dict_get (cls_sysfs_set (STP.enable BridgeIf.class)) name
  = Some (mkParameterSpec assert_positive None
            (λ ifname, "/sys/class/net/" +:+ ifname +:+ ending)) →
  dict_get (cls_command_set (STP.enable BridgeIf.class)) name = None →
  assert_positive v = false →
  interface_action (mkIface (STP.enable BridgeIf.class) port) name (Some v)
  = AFail (InvalidParameter name v).
Proof.
  intros Hs Hc Hv.
  rewrite (interface_action_sysfs
             (mkIface (STP.enable BridgeIf.class) port) _ _ _ Hc Hs).
  unfold sysfs_action. simpl. by rewrite Hv.
Qed.

(** A pass that returns has accepted every scalar parameter and every
    port. *)
Lemma returning_pass_accepts br config w :
  succeeds (BridgeIf.update (BridgeIf.new br) config w) →
  scalars_accepted config ∧ Forall port_accepted (joining_ports config).
Proof.
  intros Hok%update_succeeds. split.
  - intros name get Hin v Hg.
    destruct (assert_positive v) eqn:Hv; [done|]. exfalso.
    pose proof (scalar_action_refused br config name get v Hin Hg Hv) as Ha.
    assert (AFail (InvalidParameter name v)
              ∈ pass_body (BridgeIf.new br) config) as Hbody.
    { apply parameter_actions_body. rewrite <-Ha.
      unfold scalar_parameters in Hin. unfold parameter_actions.
      repeat (apply elem_of_cons in Hin as [Hin|Hin]);
        [injection Hin as -> ->; set_solver.. | by apply elem_of_nil in Hin]. }
    by pose proof (failure_None_step _ _ Hok Hbody).
  - apply Forall_forall. intros [p pc] Hp. split; intros v Hg;
      (destruct (assert_positive v) eqn:Hv; [done|]); exfalso; simpl in Hg.
    + assert (AFail (InvalidParameter "path_cost" v)
                ∈ pass_body (BridgeIf.new br) config) as Hbody.
      { apply (port_actions_body br config (p, pc)); [done|].
        unfold port_actions. simpl. rewrite Hg.
        rewrite (port_parameter_refused p "path_cost" "/brport/path_cost");
          [|done..].
        set_solver. }
      by pose proof (failure_None_step _ _ Hok Hbody).
    + assert (AFail (InvalidParameter "path_priority" v)
                ∈ pass_body (BridgeIf.new br) config) as Hbody.
      { apply (port_actions_body br config (p, pc)); [done|].
        unfold port_actions. simpl. rewrite Hg.
        rewrite (port_parameter_refused p "path_priority" "/brport/priority");
          [|done..].
        set_solver. }
      by pose proof (failure_None_step _ _ Hok Hbody).
Qed.

Lemma returning_pass_reaches_port br config w port :
  succeeds (BridgeIf.update (BridgeIf.new br) config w) →
  port ∈ (joining_ports config).*1 →
  reaches_port config port.
Proof.
  intros [Hs Hp]%returning_pass_accepts Hin. split; [done|].
  apply list_elem_of_fmap in Hin as ([p pc] & -> & Hin).
  apply list_elem_of_split in Hin as (before & after & Heq).
  exists before, pc, after. split; [done|].
  rewrite Heq in Hp. by apply Forall_app in Hp as [? _].
Qed.

(** The actions of a pass up to the attachment of a port that it reaches,
    none of which raises, and the actions after it. *)
Lemma pass_body_split_at_port br config before port pc after :
  scalars_accepted config →
  joining_ports config = before ++ (port, pc) :: after →
  Forall port_accepted before →
  let STPBridgeIf := mkIface (STP.enable BridgeIf.class) port in
  let X1 := parameter_actions (BridgeIf.new br) config
            ++ removal_actions (BridgeIf.new br) config in
  let X2 := flat_map (port_actions (BridgeIf.new br)) before
            ++ [AFlush port; ACommand (IpLinkSetMaster port br)] in
  let Z := [ interface_action STPBridgeIf "path_cost" (port_cost pc);
             interface_action STPBridgeIf "path_priority" (port_priority pc) ]
           ++ flat_map (port_actions (BridgeIf.new br)) after in
  pass_body (BridgeIf.new br) config = (X1 ++ X2) ++ Z
  ∧ failure (X1 ++ X2) = None.
Proof.
  intros Hacc Hj Hbefore STPBridgeIf X1 X2 Z. split.
  - unfold pass_body, addition_actions, X1, X2, Z. rewrite Hj.
    rewrite flat_map_app. cbn [flat_map]. unfold port_actions at 2.
    rewrite add_port_action. simpl. by rewrite <-!app_assoc.
  - unfold X1, X2. rewrite !failure_app, scalars_accepted_failure,
      removal_actions_failure, additions_failure; done.
Qed.

Lemma after_port_commands br port pc after c :
  ACommand c
    ∈ [ interface_action (mkIface (STP.enable BridgeIf.class) port)
          "path_cost" (port_cost pc);
        interface_action (mkIface (STP.enable BridgeIf.class) port)
          "path_priority" (port_priority pc) ]
      ++ flat_map (port_actions (BridgeIf.new br)) after →
  ∃ q, c = IpLinkSetMaster q br.
Proof.
  repeat (erewrite interface_action_sysfs by reflexivity).
  intros [H|H]%elem_of_app.
  - repeat (apply elem_of_cons in H as [H|H]);
      try (by apply eq_sym, sysfs_action_no_command in H).
    by apply elem_of_nil in H.
  - apply list_elem_of_In, in_flat_map in H as (q & _ & H).
    apply list_elem_of_In, port_actions_commands in H. by exists q.1.
Qed.

Lemma command_master_assign l k o :
  (k, o) ∈ flat_map master_assigns l →
  (∃ m, o = Some m ∧ ACommand (IpLinkSetMaster k m) ∈ l)
  ∨ (o = None ∧ ACommand (IpLinkSetNomaster k) ∈ l).
Proof.
  induction l as [|a l IH]; simpl; [by intros ?%elem_of_nil|].
  intros [H|H]%elem_of_app.
  - destruct a as [| |[dev m|dev]| | |]; simpl in H;
      try (by apply elem_of_nil in H);
      apply list_elem_of_singleton in H; injection H as -> ->.
    + left. exists m. split; [done|]. by left.
    + right. split; [done|]. by left.
  - destruct (IH H) as [(m & -> & Hm)|[-> Hn]].
    + left. exists m. split; [done|]. by right.
    + right. split; [done|]. by right.
Qed.

(** C7.  When a port is both in [member.interface_remove] and in
    [member.interface], a pass that gets as far as that port (as every
    pass that returns does) detaches it first and attaches it afterwards,
    and ends with the port on the bridge, even when the pass raises later
    on: the log falls into a first part, which holds the detachment of the
    port and no attachment at all, and a second part, which holds the
    attachment of the port and no detachment at all. *)
Theorem C7_removed_and_added_port_ends_attached
    (br : string) (config : DesiredConfig) (w : World) (port : string) :
  port ∈ removed_ports config →
  reaches_port config port →
  let r := BridgeIf.update (BridgeIf.new br) config w in
  attached (world r) br port
  ∧ ∃ removals additions,
      events r = removals ++ additions
      ∧ Command (IpLinkSetNomaster port) ∈ removals
      ∧ Command (IpLinkSetMaster port br) ∈ additions
      ∧ (∀ dev m, Command (IpLinkSetMaster dev m) ∉ removals)
      ∧ (∀ dev, Command (IpLinkSetNomaster dev) ∉ additions).
Proof.
  intros Hrem (Hacc & before & pc & after & Hj & Hbefore) r.
  destruct (pass_body_split_at_port br config before port pc after
              Hacc Hj Hbefore) as [Hbody HfX].
  set (X1 := parameter_actions (BridgeIf.new br) config
             ++ removal_actions (BridgeIf.new br) config) in *.
  set (X2 := flat_map (port_actions (BridgeIf.new br)) before
             ++ [AFlush port; ACommand (IpLinkSetMaster port br)]) in *.
  set (Z := _ ++ flat_map (port_actions (BridgeIf.new br)) after) in *.
  assert (executed (pass_body (BridgeIf.new br) config)
          = (X1 ++ X2) ++ executed Z) as Hex.
  { by rewrite Hbody, executed_app, HfX, (failure_None_executed _ HfX). }
  assert (∀ c, ACommand c ∈ executed Z → ∃ q, c = IpLinkSetMaster q br)
    as HZ.
  { intros c Hc%executed_subseteq. by apply after_port_commands in Hc. }
  split.
  - unfold attached, r. rewrite update_master, lookup_assign_all, Hex.
    rewrite !flat_map_app, last_assign_app.
    destruct (last_assign port (flat_map master_assigns (executed Z)))
      as [o|] eqn:Hl.
    + apply last_assign_Some, command_master_assign in Hl
        as [(m & -> & Hm)|[-> Hn]].
      * by destruct (HZ _ Hm) as (q & [= _ ->]).
      * by destruct (HZ _ Hn) as (q & ?).
    + unfold X2. rewrite flat_map_app, !last_assign_app. simpl.
      by rewrite decide_True.
  - exists (flat_map body_events X1),
      (flat_map body_events X2 ++ flat_map body_events (executed Z)
       ++ if failure (pass_body (BridgeIf.new br) config) is Some _ then []
          else [AdminState br (requested_state config)
                  (admin_step (requested_state config) w).2]).
    split_and!.
    + unfold r. rewrite update_events, Hex, !flat_map_app.
      by rewrite <-!app_assoc.
    + apply command_event_action. unfold X1. apply elem_of_app. right.
      rewrite removal_actions_eq. apply list_elem_of_fmap. by exists port.
    + apply elem_of_app. left. apply command_event_action. unfold X2.
      apply elem_of_app. right. apply elem_of_cons. right. by left.
    + intros dev m H%command_event_action. unfold X1 in H.
      apply elem_of_app in H as [H|H].
      * by apply parameter_actions_no_command in H.
      * rewrite removal_actions_eq in H.
        by apply list_elem_of_fmap in H as (? & ? & _).
    + intros dev [H|[H|H]%elem_of_app]%elem_of_app.
      * apply command_event_action in H. unfold X2 in H.
        apply elem_of_app in H as [H|H].
        -- apply list_elem_of_In, in_flat_map in H as (q & _ & H).
           by apply list_elem_of_In, port_actions_commands in H.
        -- repeat (apply elem_of_cons in H as [H|H]); try done.
           by apply elem_of_nil in H.
      * apply command_event_action in H. by destruct (HZ _ H) as (q & ?).
      * destruct (failure (pass_body (BridgeIf.new br) config));
          [by apply elem_of_nil in H|].
        by apply list_elem_of_singleton in H.
Qed.

Lemma C7_port_witness :
  let config :=
    {| aging := None; forwarding_delay := None; hello_time := None;
       max_age := None; priority := None; stp := false; igmp := None;
       member :=
         Some {| interface :=
                   Some [("eth0", {| port_cost := None;
                                     port_priority := None |})];
                 interface_remove := Some ["eth0"] |};
       disable := false |} in
  let r := BridgeIf.update (BridgeIf.new "br0") config fresh_world in
  "eth0" ∈ removed_ports config
  ∧ reaches_port config "eth0"
  ∧ succeeds r
  ∧ attached (world r) "br0" "eth0"
  ∧ events r
    = [ SysfsWrite "/sys/class/net/br0/bridge/stp_state" (VStr "0");
        SysfsWrite "/sys/class/net/br0/bridge/multicast_querier" (VStr "0");
        Command (IpLinkSetNomaster "eth0");
        FlushAddrs "eth0";
        Command (IpLinkSetMaster "eth0" "br0");
        AdminState "br0" up true ].
Proof.
  intros config r.
  assert ("eth0" ∈ removed_ports config) as Hr
    by (apply elem_of_cons; by left).
  assert (scalars_accepted config) as Hacc.
  { intros name get Hin v Hg. unfold scalar_parameters in Hin.
    repeat (apply elem_of_cons in Hin as [Hin|Hin]);
      [injection Hin as -> ->; discriminate Hg..
      | by apply elem_of_nil in Hin]. }
  assert (reaches_port config "eth0") as Hreach.
  { split; [exact Hacc|].
    exists [], {| port_cost := None; port_priority := None |}, [].
    split; [reflexivity | apply Forall_nil_2]. }
  assert (succeeds r) as Hok by (exists tt; vm_compute; reflexivity).
  split; [exact Hr|]. split; [exact Hreach|]. split; [exact Hok|].
  split; [|reflexivity].
  exact (proj1 (C7_removed_and_added_port_ends_attached
                  "br0" config fresh_world "eth0" Hr Hreach)).
Defined.
